(** * pyqtprotractor: the geometry of [protractor.py]

    A shallow embedding of the geometry helpers of [protractor.py]
    ([threePointAngle], [centerPoint], [drawShortenedLine], [pointsOnLine],
    [rectsOnLine]) and of the part of the [Handle] / [Protractor] widgets that
    decides the angle shown in the label.

    Modelling conventions.
    - A Python [int] is a [Z].  The coordinates of a [QPoint] and the
      geometry of a [QWidget] are such integers; screen coordinates stay far
      inside the range of the C [int] Qt stores them in, so [QPoint]
      arithmetic is the exact integer arithmetic.
    - A Python [float] (and Qt's [qreal]) is a real number, [R]: the
      functions of the [math] module are the real functions they
      approximate, and rounding, infinities and NaN are outside the model.
      [math.atan2] has the quadrant conventions of the C library,
      [atan2(0, 0) = 0] and [atan2(0, x) = pi] for [x < 0].  Where the sign
      of a float zero decides a result, in [threePointAngle] on float
      points, a float is a [PyFloat], a real with the sign bit of its
      zero.
    - An operation that raises in Python ([ZeroDivisionError]) is a
      computation in the error monad [sum PyError].
    - A [QPainter] is the list of the lines drawn on it so far.
    - Of the widgets the model keeps what the displayed angle depends on:
      the geometry of the three handles, the drag offsets, [angleInvert] and
      the number formatted into the label.  The label's geometry, the mask
      and the painting of the widgets are left out. *)

From Stdlib Require Import ZArith Reals List Bool Lia Lra Psatz.
From Stdlib Require Import Zfloor.
From ExtLib Require Import Structures.Monad Data.Monads.EitherMonad.
Import ListNotations.
Import MonadNotation.

Local Open Scope R_scope.

(** ** Numbers *)

(** A float with the sign of its zero: the value, and the sign bit, which
    matters when the value is 0 ([-0.0] has it set).  The operations are
    exact on the values and follow IEEE 754 for the sign of a zero result. *)
Record PyFloat : Type := mkFloat { fval : R; fneg : bool }.

(** The sign bit the float really has: that of its value, or [fneg] for a
    zero. *)
Definition sign (f : PyFloat) : bool :=
  if Rlt_dec (fval f) 0 then true
  else if Rlt_dec 0 (fval f) then false
  else fneg f.

(** [float(z)] of an [int], and a float whose zero is [+0.0]. *)
Definition of_int (z : Z) : PyFloat := mkFloat (IZR z) false.
Definition of_real (v : R) : PyFloat := mkFloat v false.

(** A zero product is negative when the signs of the factors differ; a
    zero sum is [-0.0] only for [-0.0 + -0.0]; [a - b] is [a + (-b)]. *)
Definition fmul (a b : PyFloat) : PyFloat :=
  mkFloat (fval a * fval b) (xorb (sign a) (sign b)).
Definition fadd (a b : PyFloat) : PyFloat :=
  mkFloat (fval a + fval b) (sign a && sign b).
Definition fsub (a b : PyFloat) : PyFloat :=
  mkFloat (fval a - fval b) (sign a && negb (sign b)).

(** The arithmetic [threePointAngle] uses is duck-typed: it is applied to
    [QPoint]s (integer coordinates) and makes sense for points with float
    coordinates alike. *)
Class Number (T : Type) : Type := {
  nadd : T -> T -> T;
  nsub : T -> T -> T;
  nmul : T -> T -> T
}.

#[export] Instance Number_int : Number Z :=
  {| nadd := Z.add; nsub := Z.sub; nmul := Z.mul |}.

#[export] Instance Number_float : Number R :=
  {| nadd := Rplus; nsub := Rminus; nmul := Rmult |}.

#[export] Instance Number_pyfloat : Number PyFloat :=
  {| nadd := fadd; nsub := fsub; nmul := fmul |}.

(** [to_float] is the conversion [math.atan2] applies to its arguments. *)
Class Floatable (T : Type) : Type := { to_float : T -> PyFloat }.

#[export] Instance Floatable_int : Floatable Z := {| to_float := of_int |}.

#[export] Instance Floatable_pyfloat : Floatable PyFloat :=
  {| to_float := fun f => f |}.

(** ** The [math] module *)

Module math.

Definition pi : R := PI.

(** [math.atan2(y, x)] on floats whose zeros are [+0.0]: the angle of the
    vector [(x, y)], in (-pi, pi]. *)
Definition atan2 (y x : R) : R :=
  if Rlt_dec 0 x then atan (y / x)
  else if Rlt_dec x 0 then
    if Rle_dec 0 y then atan (y / x) + PI else atan (y / x) - PI
  else if Rlt_dec 0 y then PI / 2
  else if Rlt_dec y 0 then - (PI / 2)
  else 0.

(** [math.atan2(y, x)] with the sign of zero: for [y = +-0.0] the result
    is [+-pi] when [x] is negative or [-0.0], and [+-0.0] otherwise; for
    other [y] the sign of a zero [x] does not matter. *)
Definition atan2f (y x : PyFloat) : R :=
  if Req_dec_T (fval y) 0 then
    if sign x then (if sign y then - PI else PI) else 0
  else atan2 (fval y) (fval x).

Definition sqrt (v : R) : R := R_sqrt.sqrt v.

(** [math.ceil] returns an [int].  A quotient that overflows to [inf], on
    which Python's [math.ceil] raises [OverflowError], is outside the
    model of floats as reals. *)
Definition ceil (v : R) : Z := Zceil v.

End math.

(** ** Points *)

(** [QPoint] and [QPointF]: a pair of coordinates, read with [x()] and
    [y()]. *)
Record Point (T : Type) : Type := mkPoint { xp : T; yp : T }.

Arguments mkPoint {T} _ _.
Arguments xp {T} _.
Arguments yp {T} _.

Definition QPoint : Type := Point Z.
Definition QPointF : Type := Point R.

Definition QPoint_ (a b : Z) : QPoint := mkPoint a b.
Definition QPointF_ (a b : R) : QPointF := mkPoint a b.

(** [p - q] and [p + q] on points. *)
Definition psub {T} `{Number T} (p q : Point T) : Point T :=
  mkPoint (nsub (xp p) (xp q)) (nsub (yp p) (yp q)).

Definition padd {T} `{Number T} (p q : Point T) : Point T :=
  mkPoint (nadd (xp p) (xp q)) (nadd (yp p) (yp q)).

(** [p * c] on a [QPointF]. *)
Definition pscale (p : QPointF) (c : R) : QPointF :=
  mkPoint (xp p * c) (yp p * c).

(** [QPointF.dotProduct]. *)
Definition dotProduct (p q : QPointF) : R := xp p * xp q + yp p * yp q.

(** ** [threePointAngle] *)

Definition threePointAngle {T} `{Number T} `{Floatable T}
    (p1 center p2 : Point T) : R :=
  let d1 := psub p1 center in
  let d2 := psub p2 center in
  let dot := nadd (nmul (xp d1) (xp d2)) (nmul (yp d1) (yp d2)) in
  let det := nsub (nmul (xp d1) (yp d2)) (nmul (yp d1) (xp d2)) in
  math.atan2f (to_float det) (to_float dot).

(** The vocabulary of the specification: cross and dot product of two
    integer vectors. *)
Definition cross (d1 d2 : QPoint) : Z := (xp d1 * yp d2 - yp d1 * xp d2)%Z.
Definition dot (d1 d2 : QPoint) : Z := (xp d1 * xp d2 + yp d1 * yp d2)%Z.

(** [d1] and [d2] point in opposite directions along one line: the arms of
    a straight-line configuration. *)
Definition opposite (d1 d2 : QPoint) : bool :=
  (cross d1 d2 =? 0)%Z && (dot d1 d2 <? 0)%Z.

(** ** Exceptions *)

Inductive PyError : Type :=
| ZeroDivisionError
| AttributeError.

(** A computation that returns an [A] or raises. *)
Definition Py (A : Type) : Type := sum PyError A.

#[export] Instance Monad_Py : Monad Py := Monad_either PyError.

Definition raise {A : Type} (e : PyError) : Py A := inl e.

(** [a / b] on floats: raises when the divisor is zero. *)
Definition truediv (a b : R) : Py R :=
  if Req_dec_T b 0 then raise ZeroDivisionError else ret (a / b).

(** [p / c] on a [QPointF].  With a zero divisor there is no point to
    return (Qt would produce non-finite coordinates). *)
Definition pdiv (p : QPointF) (c : R) : Py QPointF :=
  if Req_dec_T c 0 then raise ZeroDivisionError
  else ret (mkPoint (xp p / c) (yp p / c)).

(** [range(n)]. *)
Definition range (n : Z) : list Z := map Z.of_nat (seq 0 (Z.to_nat n)).

(** ** Widgets *)

(** The geometry of a [QWidget]: [x()], [y()], [width()], [height()]. *)
Record QWidget : Type := mkWidget {
  wx : Z;
  wy : Z;
  wwidth : Z;
  wheight : Z
}.

Definition pos (w : QWidget) : QPoint := QPoint_ (wx w) (wy w).

Definition move (w : QWidget) (p : QPoint) : QWidget :=
  mkWidget (xp p) (yp p) (wwidth w) (wheight w).

Definition setGeometry (ax ay aw ah : Z) : QWidget := mkWidget ax ay aw ah.

Definition centerPoint (w : QWidget) : QPointF :=
  QPointF_ (IZR (wx w) + IZR (wwidth w) / 2) (IZR (wy w) + IZR (wheight w) / 2).

(** The floats of a point whose zero coordinates are [+0.0], as those of a
    [centerPoint] are: a sum [x + width / 2] is never [-0.0]. *)
Definition floatPoint (p : QPointF) : Point PyFloat :=
  mkPoint (of_real (xp p)) (of_real (yp p)).

(** ** [drawShortenedLine] *)

Inductive QLineF : Type := Line (a b : QPointF).

(** The lines drawn so far, oldest first. *)
Definition QPainter : Type := list QLineF.

Definition drawLine (qPainter : QPainter) (a b : QPointF) : QPainter :=
  qPainter ++ [Line a b].

Definition drawShortenedLine (qPainter : QPainter) (p1 p2 : QPointF)
    (shorten1 shorten2 : R) : QPainter :=
  let diff := psub p2 p1 in
  let length := math.sqrt (dotProduct diff diff) in
  if Req_dec_T length 0 then qPainter
  else if Rge_dec (shorten1 + shorten2) length then qPainter
  else
    let p2' := padd p1 (pscale diff (1 - Rmax 0 (Rmin 1 (shorten2 / length)))) in
    let p1' := padd p1 (pscale diff (Rmax 0 (Rmin 1 (shorten1 / length)))) in
    drawLine qPainter p1' p2'.

(** ** [pointsOnLine] and [rectsOnLine] *)

Local Open Scope monad_scope.

Definition pointsOnLine (p1 p2 : QPointF) (maxDistance : R) : Py (list QPointF) :=
  let diff := psub p2 p1 in
  qX <- truediv (Rabs (xp p1 - xp p2)) maxDistance ;;
  let countX := math.ceil qX in
  qY <- truediv (Rabs (yp p1 - yp p2)) maxDistance ;;
  let countY := math.ceil qY in
  let count := Z.max 1 (Z.min countX countY) in
  segment <- pdiv diff (IZR count) ;;
  ret (map (fun i => padd p1 (pscale segment (IZR i))) (range count) ++ [p2]).

(** [QRectF]: top-left corner, width and height. *)
Record QRectF : Type := mkRectF { rx : R; ry : R; rw : R; rh : R }.

(** [QRectF(topLeft, bottomRight)]. *)
Definition QRectF_ (topLeft bottomRight : QPointF) : QRectF :=
  mkRectF (xp topLeft) (yp topLeft)
          (xp bottomRight - xp topLeft) (yp bottomRight - yp topLeft).

(** [QRectF.normalized]: a negative width or height is flipped. *)
Definition normalized (r : QRectF) : QRectF :=
  let r1 := if Rlt_dec (rw r) 0
            then mkRectF (rx r + rw r) (ry r) (- rw r) (rh r) else r in
  if Rlt_dec (rh r1) 0
  then mkRectF (rx r1) (ry r1 + rh r1) (rw r1) (- rh r1) else r1.

(** [QRectF.adjusted(dx1, dy1, dx2, dy2)]. *)
Definition adjusted (r : QRectF) (dx1 dy1 dx2 dy2 : R) : QRectF :=
  mkRectF (rx r + dx1) (ry r + dy1) (rw r + dx2 - dx1) (rh r + dy2 - dy1).

Definition rectsOnLine (p1 p2 : QPointF) (maxDistance overlap : R)
    : Py (list QRectF) :=
  points <- pointsOnLine p1 p2 maxDistance ;;
  let pairs := combine (tl points) (removelast points) in
  ret (map (fun '(pA, pB) =>
              adjusted (normalized (QRectF_ pA pB))
                       (- overlap / 2) (- overlap / 2) (overlap / 2) (overlap / 2))
           pairs).

(** ** [Handle] *)

(** A [Handle] is a widget with the [offset] attribute that
    [mousePressEvent] sets. *)
Record Handle : Type := mkHandle {
  widget : QWidget;
  offset : option QPoint
}.

Module Handle_.

Definition __init__ : Handle := mkHandle (setGeometry 300 300 31 31) None.

(** The radius of the circle drawn in the handle. *)
Definition r (self : Handle) : R := IZR (wwidth (widget self)) / 4.

Definition move (self : Handle) (p : QPoint) : Handle :=
  mkHandle (move (widget self) p) (offset self).

Definition mousePressEvent (self : Handle) (eventPos : QPoint) : Handle :=
  mkHandle (widget self) (Some eventPos).

(** [mapToParent(p)] of a child widget is [p + pos()].  The [moved] signal
    emitted afterwards is the caller's business, see
    [Protractor_.handleMoved]. *)
Definition mouseMoveEvent (self : Handle) (eventPos : QPoint) : Py Handle :=
  match offset self with
  | None => raise AttributeError
  | Some off =>
      ret (move self (psub (padd eventPos (pos (widget self))) off))
  end.

End Handle_.

(** ** [Protractor] *)

(** The state of the overlay that the angle depends on.  [label] is the
    number last formatted into the label's text ([None] before the first
    [updateDisplay]); the label's geometry, the mask and the painting are
    not part of the model. *)
Record Protractor : Type := mkProtractor {
  handleC : Handle;
  handle1 : Handle;
  handle2 : Handle;
  angleInvert : bool;
  dragOffset : option QPoint;
  label : option R
}.

Inductive HandleId : Type := HC | H1 | H2.

Module Protractor_.

Definition setLabel (self : Protractor) (angleDeg : R) : Protractor :=
  mkProtractor (handleC self) (handle1 self) (handle2 self)
               (angleInvert self) (dragOffset self) (Some angleDeg).

(** The number [updateDisplay] formats with ["%0.2f"]. *)
Definition angleDeg (self : Protractor) : R :=
  let angle := threePointAngle (pos (widget (handle1 self)))
                               (pos (widget (handleC self)))
                               (pos (widget (handle2 self))) in
  let angleDeg := 180 * angle / math.pi in
  let angleDeg := if angleInvert self then 180 - angleDeg else angleDeg in
  let angleDeg := if Rgt_dec angleDeg 180 then angleDeg - 360 else angleDeg in
  angleDeg.

Definition updateDisplay (self : Protractor) : Protractor :=
  setLabel self (angleDeg self).

Definition __init__ : Protractor :=
  let handleC := Handle_.__init__ in
  let handle1 := Handle_.__init__ in
  let handle2 := Handle_.__init__ in
  let handleC := Handle_.move handleC (QPoint_ 50 200) in
  let handle1 := Handle_.move handle1 (QPoint_ 200 200) in
  let handle2 := Handle_.move handle2 (QPoint_ 200 50) in
  updateDisplay (mkProtractor handleC handle1 handle2 false None None).

Definition mousePressEvent (self : Protractor) (eventPos : QPoint) : Protractor :=
  mkProtractor (handleC self) (handle1 self) (handle2 self)
               (angleInvert self) (Some eventPos) (label self).

(** Dragging the background moves every child by the same [diff]. *)
Definition mouseMoveEvent (self : Protractor) (eventPos : QPoint) : Py Protractor :=
  match dragOffset self with
  | None => raise AttributeError
  | Some off =>
      let diff := psub eventPos off in
      let mv (h : Handle) := Handle_.move h (padd (pos (widget h)) diff) in
      ret (updateDisplay
             (mkProtractor (mv (handleC self)) (mv (handle1 self)) (mv (handle2 self))
                           (angleInvert self) (Some eventPos) (label self)))
  end.

Definition mouseDoubleClickEvent (self : Protractor) : Protractor :=
  updateDisplay
    (mkProtractor (handleC self) (handle1 self) (handle2 self)
                  (negb (angleInvert self)) (dragOffset self) (label self)).

(** A mouse move on one handle: the handle moves and its [moved] signal runs
    [updateDisplay]. *)
Definition handleMoved (self : Protractor) (which : HandleId) (eventPos : QPoint)
    : Py Protractor :=
  match which with
  | HC => h <- Handle_.mouseMoveEvent (handleC self) eventPos ;;
          ret (updateDisplay
                 (mkProtractor h (handle1 self) (handle2 self)
                               (angleInvert self) (dragOffset self) (label self)))
  | H1 => h <- Handle_.mouseMoveEvent (handle1 self) eventPos ;;
          ret (updateDisplay
                 (mkProtractor (handleC self) h (handle2 self)
                               (angleInvert self) (dragOffset self) (label self)))
  | H2 => h <- Handle_.mouseMoveEvent (handle2 self) eventPos ;;
          ret (updateDisplay
                 (mkProtractor (handleC self) (handle1 self) h
                               (angleInvert self) (dragOffset self) (label self)))
  end.

(** [mouseReleaseEvent] only changes the cursor. *)
Definition mouseReleaseEvent (self : Protractor) : Protractor := self.

(** A mouse press on one handle, which keeps the event for itself. *)
Definition handlePressed (self : Protractor) (which : HandleId) (eventPos : QPoint)
    : Protractor :=
  match which with
  | HC => mkProtractor (Handle_.mousePressEvent (handleC self) eventPos)
                       (handle1 self) (handle2 self)
                       (angleInvert self) (dragOffset self) (label self)
  | H1 => mkProtractor (handleC self)
                       (Handle_.mousePressEvent (handle1 self) eventPos)
                       (handle2 self)
                       (angleInvert self) (dragOffset self) (label self)
  | H2 => mkProtractor (handleC self) (handle1 self)
                       (Handle_.mousePressEvent (handle2 self) eventPos)
                       (angleInvert self) (dragOffset self) (label self)
  end.

(** The rectangles [updateMask] unites with the children's region:
    [line1 + line2], before they are rounded with [toRect]. *)
Definition maskLines (self : Protractor) : Py (list QRectF) :=
  line1 <- rectsOnLine (centerPoint (widget (handleC self)))
                       (centerPoint (widget (handle1 self))) 40 5 ;;
  line2 <- rectsOnLine (centerPoint (widget (handleC self)))
                       (centerPoint (widget (handle2 self))) 40 5 ;;
  ret (line1 ++ line2).

(** The two pens of [paintEvent]; the painter model records the lines, not
    the pen they are drawn with. *)
Inductive Pen : Type := light | dark.

(** The lines [paintEvent] draws on a fresh painter: the two arms, once
    with each pen. *)
Definition paintEvent (self : Protractor) : QPainter :=
  fold_left
    (fun (qp : QPainter) (pen : Pen) =>
       let qp := drawShortenedLine qp
                   (centerPoint (widget (handleC self)))
                   (centerPoint (widget (handle1 self)))
                   (Handle_.r (handleC self) + 1) (Handle_.r (handle1 self) + 1) in
       drawShortenedLine qp
         (centerPoint (widget (handleC self)))
         (centerPoint (widget (handle2 self)))
         (Handle_.r (handleC self) + 1) (Handle_.r (handle2 self) + 1))
    [light; dark] [].

End Protractor_.

(** ** The events of the overlay *)

(** The mouse events the two widget classes handle.  Positions are relative
    to the widget that receives the event. *)
Inductive Event : Type :=
| HandlePress (which : HandleId) (eventPos : QPoint)
| HandleMove (which : HandleId) (eventPos : QPoint)
| MousePress (eventPos : QPoint)
| MouseMove (eventPos : QPoint)
| MouseRelease
| MouseDoubleClick.

Definition dispatch (self : Protractor) (e : Event) : Py Protractor :=
  match e with
  | HandlePress which eventPos => ret (Protractor_.handlePressed self which eventPos)
  | HandleMove which eventPos => Protractor_.handleMoved self which eventPos
  | MousePress eventPos => ret (Protractor_.mousePressEvent self eventPos)
  | MouseMove eventPos => Protractor_.mouseMoveEvent self eventPos
  | MouseRelease => ret (Protractor_.mouseReleaseEvent self)
  | MouseDoubleClick => ret (Protractor_.mouseDoubleClickEvent self)
  end.

(** The states the overlay goes through: the constructed one, and every
    state an event that does not raise leads to. *)
Inductive reachable : Protractor -> Prop :=
| reachable_init : reachable Protractor_.__init__
| reachable_step (self self' : Protractor) (e : Event) :
    reachable self -> dispatch self e = inr self' -> reachable self'.

(** The handle of a given role. *)
Definition handleOf (self : Protractor) (which : HandleId) : Handle :=
  match which with
  | HC => handleC self
  | H1 => handle1 self
  | H2 => handle2 self
  end.

(** What every event keeps: the three handles are 31 by 31 and the label
    shows the angle of the present handle positions. *)
Definition size31 (h : Handle) : Prop :=
  wwidth (widget h) = 31%Z /\ wheight (widget h) = 31%Z.

Definition fresh (self : Protractor) : Prop :=
  size31 (handleC self) /\ size31 (handle1 self) /\ size31 (handle2 self)
  /\ label self = Some (Protractor_.angleDeg self).

Local Close Scope monad_scope.

(** ** Configurations *)

(** An overlay whose handles (31 by 31, as [Handle.__init__] makes them) sit
    at the given positions. *)
Definition handleAt (p : QPoint) : Handle := Handle_.move Handle_.__init__ p.

Definition protractorAt (center arm1 arm2 : QPoint) (invert : bool) : Protractor :=
  mkProtractor (handleAt center) (handleAt arm1) (handleAt arm2) invert None None.

(** The degrees of the raw angle, before inversion and wrapping. *)
Definition rawDeg (self : Protractor) : R :=
  180 * threePointAngle (pos (widget (handle1 self)))
                        (pos (widget (handleC self)))
                        (pos (widget (handle2 self))) / math.pi.

(** The arms of [self] lie on opposite sides of the center handle. *)
Definition straightLine (self : Protractor) : bool :=
  opposite (psub (pos (widget (handle1 self))) (pos (widget (handleC self))))
           (psub (pos (widget (handle2 self))) (pos (widget (handleC self)))).

(** Two widgets of identical width and height. *)
Definition sameSize (a b : QWidget) : Prop :=
  wwidth a = wwidth b /\ wheight a = wheight b.

(** ** The vocabulary of the segment properties *)

(** The Euclidean distance of two points; the length of the segment between
    them. *)
Definition dist (a b : QPointF) : R :=
  sqrt ((xp b - xp a) * (xp b - xp a) + (yp b - yp a) * (yp b - yp a)).

(** The number of pieces [pointsOnLine] is specified to cut a segment into. *)
Definition pieceCount (p1 p2 : QPointF) (maxSpacing : R) : Z :=
  Z.max 1 (Z.min (Zceil (Rabs (xp p2 - xp p1) / maxSpacing))
                 (Zceil (Rabs (yp p2 - yp p1) / maxSpacing))).

(** The point at fraction [t] of the way from [p1] to [p2]. *)
Definition along (p1 p2 : QPointF) (t : R) : QPointF :=
  mkPoint (xp p1 + t * (xp p2 - xp p1)) (yp p1 + t * (yp p2 - yp p1)).

(** [q] is within [h] of some point of the segment from [p1] to [p2]. *)
Definition nearSegment (p1 p2 : QPointF) (h : R) (q : QPointF) : Prop :=
  exists t : R, 0 <= t <= 1 /\ dist q (along p1 p2 t) <= h.

(** The points of a rectangle, edges included. *)
Definition covers (r : QRectF) (q : QPointF) : Prop :=
  rx r <= xp q <= rx r + rw r /\ ry r <= yp q <= ry r + rh r.

(** The bounding box of [a] and [b], grown by [m] on its four sides. *)
Definition boundingBox (a b : QPointF) (m : R) : QRectF :=
  mkRectF (Rmin (xp a) (xp b) - m) (Rmin (yp a) (yp b) - m)
          (Rmax (xp a) (xp b) - Rmin (xp a) (xp b) + 2 * m)
          (Rmax (yp a) (yp b) - Rmin (yp a) (yp b) + 2 * m).

(** ** Facts about [math.atan2] *)

Section Atan2.

Lemma atan2_range (y x : R) : - PI < math.atan2 y x <= PI.
Proof.
  unfold math.atan2.
  pose proof PI_RGT_0 as Hpi.
  pose proof (atan_bound (y / x)) as [Hlo Hhi].
  destruct (Rlt_dec 0 x) as [Hx | Hx]; [lra |].
  destruct (Rlt_dec x 0) as [Hx' | Hx'].
  - assert (Hinv : / x < 0) by now apply Rinv_lt_0_compat.
    destruct (Rle_dec 0 y) as [Hy | Hy].
    + assert (Hq : y / x <= 0) by (unfold Rdiv; nra).
      assert (atan (y / x) <= 0).
      { destruct Hq as [Hq | Hq].
        - left. rewrite <- atan_0. now apply atan_increasing.
        - rewrite Hq, atan_0. lra. }
      lra.
    + assert (Hq : 0 < y / x) by (unfold Rdiv; nra).
      assert (0 < atan (y / x)).
      { rewrite <- atan_0. now apply atan_increasing. }
      lra.
  - destruct (Rlt_dec 0 y); [lra |].
    destruct (Rlt_dec y 0); lra.
Qed.

Lemma atan2_0_0 : math.atan2 0 0 = 0.
Proof.
  unfold math.atan2.
  destruct (Rlt_dec 0 0) as [H | _]; [lra |].
  reflexivity.
Qed.

(** On the negative x axis the angle is [pi], whichever way round the two
    vectors are taken. *)
Lemma atan2_neg_axis (x : R) : x < 0 -> math.atan2 0 x = PI.
Proof.
  intros Hx. unfold math.atan2.
  destruct (Rlt_dec 0 x); [lra |].
  destruct (Rlt_dec x 0); [| lra].
  destruct (Rle_dec 0 0); [| lra].
  unfold Rdiv. rewrite Rmult_0_l, atan_0. lra.
Qed.

Lemma atan2_pos_y_axis (y : R) : 0 < y -> math.atan2 y 0 = PI / 2.
Proof.
  intros Hy. unfold math.atan2.
  destruct (Rlt_dec 0 0); [lra |].
  destruct (Rlt_dec 0 y); [reflexivity | lra].
Qed.

Lemma atan2_neg_y_axis (y : R) : y < 0 -> math.atan2 y 0 = - (PI / 2).
Proof.
  intros Hy. unfold math.atan2.
  destruct (Rlt_dec 0 0); [lra |].
  destruct (Rlt_dec 0 y); [lra |].
  destruct (Rlt_dec y 0); [reflexivity | lra].
Qed.

(** [atan2] is odd in its first argument, except on the negative x axis. *)
Lemma atan2_opp (y x : R) :
  ~ (y = 0 /\ x < 0) -> math.atan2 (- y) x = - math.atan2 y x.
Proof.
  intros Hne. unfold math.atan2.
  replace (- y / x) with (- (y / x)) by (unfold Rdiv; ring).
  rewrite atan_opp.
  destruct (Rlt_dec 0 x); [reflexivity |].
  destruct (Rlt_dec x 0).
  - assert (y <> 0) by (intros ->; apply Hne; split; [reflexivity | assumption]).
    destruct (Rle_dec 0 (- y)), (Rle_dec 0 y); lra.
  - destruct (Rlt_dec 0 (- y)), (Rlt_dec 0 y), (Rlt_dec (- y) 0),
      (Rlt_dec y 0); lra.
Qed.

Lemma sign_negative (f : PyFloat) : fval f < 0 -> sign f = true.
Proof. intros H. unfold sign. destruct (Rlt_dec (fval f) 0); [reflexivity | lra]. Qed.

Lemma sign_positive (f : PyFloat) : 0 < fval f -> sign f = false.
Proof.
  intros H. unfold sign.
  destruct (Rlt_dec (fval f) 0); [lra |].
  destruct (Rlt_dec 0 (fval f)); [reflexivity | lra].
Qed.

Lemma sign_zero (f : PyFloat) : fval f = 0 -> sign f = fneg f.
Proof.
  intros H. unfold sign. rewrite H.
  destruct (Rlt_dec 0 0); [lra | reflexivity].
Qed.

(** Away from a zero first argument with a second argument that is not
    positive, the sign of zero plays no part. *)
Lemma atan2f_agree (y x : PyFloat) :
  fval y <> 0 \/ 0 < fval x ->
  math.atan2f y x = math.atan2 (fval y) (fval x).
Proof.
  intros H. unfold math.atan2f.
  destruct (Req_dec_T (fval y) 0) as [Hy | Hy]; [| reflexivity].
  destruct H as [H | H]; [contradiction |].
  rewrite (sign_positive x H), Hy.
  unfold math.atan2. destruct (Rlt_dec 0 (fval x)); [| lra].
  unfold Rdiv. now rewrite Rmult_0_l, atan_0.
Qed.

(** On converted integers [math.atan2f] is [math.atan2]. *)
Lemma atan2f_of_int (a b : Z) :
  math.atan2f (of_int a) (of_int b) = math.atan2 (IZR a) (IZR b).
Proof.
  unfold math.atan2f, of_int. cbn [fval].
  destruct (Req_dec_T (IZR a) 0) as [Ha | Ha]; [| reflexivity].
  rewrite Ha.
  destruct (Rlt_dec (IZR b) 0) as [Hb | Hb].
  - rewrite sign_negative by exact Hb.
    rewrite sign_zero by reflexivity. cbn [fneg].
    unfold math.atan2.
    destruct (Rlt_dec 0 (IZR b)); [lra |].
    destruct (Rlt_dec (IZR b) 0); [| lra].
    destruct (Rle_dec 0 0); [| lra].
    unfold Rdiv. rewrite Rmult_0_l, atan_0. lra.
  - assert (Hs : sign (mkFloat (IZR b) false) = false).
    { destruct (Rlt_dec 0 (IZR b)) as [Hp | Hp].
      - now apply sign_positive.
      - rewrite sign_zero; [reflexivity | cbn [fval]; lra]. }
    rewrite Hs. unfold math.atan2.
    destruct (Rlt_dec 0 (IZR b)).
    + unfold Rdiv. now rewrite Rmult_0_l, atan_0.
    + destruct (Rlt_dec (IZR b) 0); [lra |].
      destruct (Rlt_dec 0 0); [lra |]. reflexivity.
Qed.

Lemma atan2_diag_down (a : R) : 0 < a -> math.atan2 (- a) a = - (PI / 4).
Proof.
  intros Ha. unfold math.atan2.
  destruct (Rlt_dec 0 a); [| lra].
  replace (- a / a) with (- (1)) by (field; lra).
  rewrite atan_opp, atan_1. reflexivity.
Qed.

End Atan2.

(** ** [threePointAngle] on integer points *)

Section ThreePointAngle.

Implicit Types p q d center : QPoint.

(** With [QPoint] arguments the two products are integers, converted to
    floats by [math.atan2]. *)
Lemma threePointAngle_int (p1 center p2 : QPoint) :
  threePointAngle p1 center p2 =
  math.atan2 (IZR (cross (psub p1 center) (psub p2 center)))
             (IZR (dot (psub p1 center) (psub p2 center))).
Proof. apply atan2f_of_int. Qed.

Lemma threePointAngle_eval (p1 center p2 : QPoint) (det dt : Z) :
  cross (psub p1 center) (psub p2 center) = det ->
  dot (psub p1 center) (psub p2 center) = dt ->
  threePointAngle p1 center p2 = math.atan2 (IZR det) (IZR dt).
Proof. intros <- <-. apply threePointAngle_int. Qed.

Lemma cross_swap (d1 d2 : QPoint) : cross d2 d1 = (- cross d1 d2)%Z.
Proof. unfold cross. ring. Qed.

Lemma dot_swap (d1 d2 : QPoint) : dot d2 d1 = dot d1 d2.
Proof. unfold dot. ring. Qed.

Lemma psub_diag p : psub p p = QPoint_ 0 0.
Proof.
  unfold psub, QPoint_. cbn. now rewrite !Z.sub_diag.
Qed.

Lemma psub_translate p q d : psub (padd p d) (padd q d) = psub p q.
Proof.
  unfold psub, padd. cbn. f_equal; ring.
Qed.

(** Moving the three points together does not change the angle. *)
Lemma threePointAngle_translate (p1 center p2 d : QPoint) :
  threePointAngle (padd p1 d) (padd center d) (padd p2 d) =
  threePointAngle p1 center p2.
Proof.
  rewrite !threePointAngle_int, !psub_translate. reflexivity.
Qed.

(** Two vectors pointing in opposite directions along one line. *)
Lemma opposite_angle (p1 center p2 : QPoint) :
  opposite (psub p1 center) (psub p2 center) = true ->
  threePointAngle p1 center p2 = PI.
Proof.
  unfold opposite. intros H.
  apply andb_true_iff in H as [Hc Hd].
  apply Z.eqb_eq in Hc. apply Z.ltb_lt in Hd.
  rewrite threePointAngle_int, Hc.
  apply atan2_neg_axis. now apply IZR_lt in Hd.
Qed.

Lemma opposite_swap (d1 d2 : QPoint) : opposite d2 d1 = opposite d1 d2.
Proof.
  unfold opposite. rewrite cross_swap, dot_swap.
  f_equal. destruct (Z.eqb_spec (cross d1 d2) 0), (Z.eqb_spec (- cross d1 d2) 0);
    try reflexivity; lia.
Qed.

End ThreePointAngle.

(** C1: for all integer points, [threePointAngle] is [atan2] of the cross
    and the dot product of [d1 = p1 - center] and [d2 = p2 - center]; the
    result lies in (-pi, pi]; and it is 0, not an error, when [p1] or [p2]
    is [center]. *)
Theorem threePointAngle_atan2_range_degenerate (p1 center p2 : QPoint) :
  let d1 := psub p1 center in
  let d2 := psub p2 center in
  threePointAngle p1 center p2 = math.atan2 (IZR (cross d1 d2)) (IZR (dot d1 d2))
  /\ (- math.pi < threePointAngle p1 center p2 <= math.pi)
  /\ threePointAngle center center p2 = 0
  /\ threePointAngle p1 center center = 0.
Proof.
  cbv zeta. split; [apply threePointAngle_int |].
  split; [rewrite threePointAngle_int; apply atan2_range |].
  split.
  - rewrite threePointAngle_int, psub_diag.
    unfold cross, dot, QPoint_. cbn [xp yp].
    rewrite !Z.mul_0_l. cbn. apply atan2_0_0.
  - rewrite threePointAngle_int, psub_diag.
    unfold cross, dot, QPoint_. cbn [xp yp].
    rewrite !Z.mul_0_r. cbn. apply atan2_0_0.
Qed.

(** C3, as stated, fails: with [p1] and [p2] on opposite sides of [center]
    both orders give [pi]. *)
Lemma antisymmetry_fails_on_straight_line :
  let p1 := QPoint_ (-100) 0 in
  let center := QPoint_ 0 0 in
  let p2 := QPoint_ 100 0 in
  p1 <> center /\ p2 <> center /\
  threePointAngle p1 center p2 = PI /\
  threePointAngle p2 center p1 = PI /\
  threePointAngle p1 center p2 <> - threePointAngle p2 center p1.
Proof.
  cbv zeta.
  assert (H1 : threePointAngle (QPoint_ (-100) 0) (QPoint_ 0 0) (QPoint_ 100 0) = PI)
    by (apply opposite_angle; reflexivity).
  assert (H2 : threePointAngle (QPoint_ 100 0) (QPoint_ 0 0) (QPoint_ (-100) 0) = PI)
    by (apply opposite_angle; reflexivity).
  repeat split; try discriminate; try assumption.
  rewrite H1, H2. pose proof PI_RGT_0. lra.
Qed.

(** C3, amended: unless the two vectors point in opposite directions along
    one line, swapping [p1] and [p2] negates the angle. *)
Theorem threePointAngle_antisymmetric (p1 center p2 : QPoint) :
  opposite (psub p1 center) (psub p2 center) = false ->
  threePointAngle p1 center p2 = - threePointAngle p2 center p1.
Proof.
  intros Hopp.
  rewrite (threePointAngle_int p1), (threePointAngle_int p2).
  rewrite (cross_swap (psub p2 center)), (dot_swap (psub p2 center)).
  rewrite <- (Ropp_involutive (math.atan2 (IZR (- _)) _)).
  rewrite opp_IZR, atan2_opp.
  - rewrite !Ropp_involutive. reflexivity.
  - rewrite opposite_swap in Hopp. unfold opposite in Hopp.
    rewrite cross_swap, dot_swap in Hopp |- *.
    intros [Hc Hd].
    apply eq_IZR in Hc. apply lt_IZR in Hd.
    apply andb_false_iff in Hopp as [Hopp | Hopp].
    + apply Z.eqb_neq in Hopp. lia.
    + apply Z.ltb_ge in Hopp. lia.
Qed.

Lemma threePointAngle_antisymmetric_witness :
  threePointAngle (QPoint_ 100 0) (QPoint_ 0 0) (QPoint_ 0 100) =
  - threePointAngle (QPoint_ 0 100) (QPoint_ 0 0) (QPoint_ 100 0).
Proof.
  apply (threePointAngle_antisymmetric (QPoint_ 100 0) (QPoint_ 0 0) (QPoint_ 0 100)).
  reflexivity.
Defined.

(** ** The displayed angle *)

Section Display.

Lemma deg_range (a : R) : - PI < a <= PI -> -180 < 180 * a / PI <= 180.
Proof.
  intros [Hlo Hhi]. pose proof PI_RGT_0 as Hpi.
  replace (180 * a / PI) with (180 * (a / PI)) by (field; lra).
  assert (Hq : -1 < a / PI <= 1).
  { split.
    - apply Rmult_lt_reg_r with PI; [assumption |].
      unfold Rdiv. rewrite Rmult_assoc, Rinv_l by lra. lra.
    - apply Rmult_le_reg_r with PI; [assumption |].
      unfold Rdiv. rewrite Rmult_assoc, Rinv_l by lra. lra. }
  lra.
Qed.

Lemma deg_pi : 180 * PI / PI = 180.
Proof. pose proof PI_RGT_0. field. lra. Qed.

Lemma deg_half_pi : 180 * (PI / 2) / PI = 90.
Proof. pose proof PI_RGT_0. field. lra. Qed.

Lemma rawDeg_range (self : Protractor) : -180 < rawDeg self <= 180.
Proof.
  unfold rawDeg, math.pi. apply deg_range.
  rewrite threePointAngle_int. apply atan2_range.
Qed.

(** [updateDisplay] in terms of the raw degrees. *)
Lemma angleDeg_rawDeg (self : Protractor) :
  Protractor_.angleDeg self =
  let d := if angleInvert self then 180 - rawDeg self else rawDeg self in
  if Rgt_dec d 180 then d - 360 else d.
Proof. reflexivity. Qed.

Lemma angleDeg_plain (self : Protractor) :
  angleInvert self = false -> Protractor_.angleDeg self = rawDeg self.
Proof.
  intros Hinv. rewrite angleDeg_rawDeg, Hinv. cbv zeta.
  pose proof (rawDeg_range self).
  destruct (Rgt_dec (rawDeg self) 180); [lra | reflexivity].
Qed.

(** The displayed angle depends on the handle positions through
    [threePointAngle] only. *)
Lemma angleDeg_congr (self self' : Protractor) :
  angleInvert self' = angleInvert self ->
  threePointAngle (pos (widget (handle1 self')))
                  (pos (widget (handleC self')))
                  (pos (widget (handle2 self')))
  = threePointAngle (pos (widget (handle1 self)))
                    (pos (widget (handleC self)))
                    (pos (widget (handle2 self))) ->
  Protractor_.angleDeg self' = Protractor_.angleDeg self.
Proof.
  unfold Protractor_.angleDeg. intros -> ->. reflexivity.
Qed.

Lemma label_of_updateDisplay (self : Protractor) :
  label (Protractor_.updateDisplay self) = Some (Protractor_.angleDeg self).
Proof. reflexivity. Qed.

Lemma rawDeg_straightLine (self : Protractor) :
  straightLine self = true -> rawDeg self = 180.
Proof.
  intros H. unfold rawDeg. rewrite (opposite_angle _ _ _ H).
  apply deg_pi.
Qed.

End Display.

(** C2, amended: the value [updateDisplay] puts in the label lies in
    (-180, 180]; it is the raw degree value [180 * threePointAngle / pi], replaced by 180
    minus itself when [angleInvert] is set, and then reduced by 360 when it
    exceeds 180.  With [angleInvert] set and a raw angle of 90 degrees it is
    90; with the arms on opposite sides of the center it is 180 (with
    [angleInvert] at its default, unset; 180 - 180 = 0 when it is set). *)
Theorem updateDisplay_angle_range (self : Protractor) :
  let raw := 180 * threePointAngle (pos (widget (handle1 self)))
                                   (pos (widget (handleC self)))
                                   (pos (widget (handle2 self))) / math.pi in
  let inverted := if angleInvert self then 180 - raw else raw in
  let shown := if Rgt_dec inverted 180 then inverted - 360 else inverted in
  label (Protractor_.updateDisplay self) = Some shown
  /\ (-180 < shown <= 180)
  /\ (angleInvert self = true -> raw = 90 -> shown = 90)
  /\ (straightLine self = true -> angleInvert self = false -> shown = 180)
  /\ (straightLine self = true -> angleInvert self = true -> shown = 0).
Proof.
  cbv zeta. fold (rawDeg self).
  pose proof (rawDeg_range self) as Hraw.
  split; [reflexivity |].
  split.
  - destruct (angleInvert self);
      match goal with |- context [Rgt_dec ?d 180] => destruct (Rgt_dec d 180) end;
      lra.
  - split.
    + intros -> Heq. rewrite Heq.
      destruct (Rgt_dec (180 - 90) 180); lra.
    + split; intros Hs ->; rewrite (rawDeg_straightLine self Hs).
      * destruct (Rgt_dec 180 180); lra.
      * destruct (Rgt_dec (180 - 180) 180); lra.
Qed.

Lemma rawDeg_scenarioA :
  rawDeg (protractorAt (QPoint_ 0 0) (QPoint_ 100 0) (QPoint_ 0 100) true) = 90.
Proof.
  unfold rawDeg, math.pi.
  rewrite (threePointAngle_eval _ _ _ 10000%Z 0%Z) by reflexivity.
  rewrite atan2_pos_y_axis by lra. apply deg_half_pi.
Qed.

Lemma updateDisplay_angle_range_witness :
  (let self := protractorAt (QPoint_ 0 0) (QPoint_ 100 0) (QPoint_ 0 100) true in
   label (Protractor_.updateDisplay self) = Some 90)
  /\ (let self := protractorAt (QPoint_ 0 0) (QPoint_ (-100) 0) (QPoint_ 100 0) false in
      label (Protractor_.updateDisplay self) = Some 180).
Proof.
  split; cbv zeta.
  - destruct (updateDisplay_angle_range
                (protractorAt (QPoint_ 0 0) (QPoint_ 100 0) (QPoint_ 0 100) true))
      as (Hlabel & _ & HB & _ & _).
    rewrite Hlabel. f_equal. apply HB; [reflexivity | apply rawDeg_scenarioA].
  - destruct (updateDisplay_angle_range
                (protractorAt (QPoint_ 0 0) (QPoint_ (-100) 0) (QPoint_ 100 0) false))
      as (Hlabel & _ & _ & HD & _).
    rewrite Hlabel. f_equal. apply HD; reflexivity.
Defined.

(** C2, as stated, fails: a straight-line configuration with [angleInvert]
    set displays 180 - 180 = 0, not 180. *)
Lemma straight_line_inverted_shows_0 :
  let self := protractorAt (QPoint_ 0 0) (QPoint_ (-100) 0) (QPoint_ 100 0) true in
  straightLine self = true
  /\ angleInvert self = true
  /\ label (Protractor_.updateDisplay self) = Some 0
  /\ label (Protractor_.updateDisplay self) <> Some 180.
Proof.
  cbv zeta.
  set (self := protractorAt (QPoint_ 0 0) (QPoint_ (-100) 0) (QPoint_ 100 0) true).
  assert (Hs : straightLine self = true) by reflexivity.
  assert (Hshown : Protractor_.angleDeg self = 0).
  { rewrite angleDeg_rawDeg, (rawDeg_straightLine self Hs).
    change (angleInvert self) with true. cbv zeta.
    destruct (Rgt_dec (180 - 180) 180); lra. }
  split; [exact Hs |]. split; [reflexivity |].
  rewrite label_of_updateDisplay, Hshown.
  split; [f_equal |].
  intros H. injection H as H. lra.
Qed.

(** The scenarios of the specification with [angleInvert] unset. *)
Example scenarioA_shows_90 :
  label (Protractor_.updateDisplay
           (protractorAt (QPoint_ 0 0) (QPoint_ 100 0) (QPoint_ 0 100) false))
  = Some 90.
Proof.
  cbn [label Protractor_.updateDisplay Protractor_.setLabel]. apply f_equal.
  rewrite angleDeg_plain by reflexivity.
  unfold rawDeg, math.pi.
  rewrite (threePointAngle_eval _ _ _ 10000%Z 0%Z) by reflexivity.
  rewrite atan2_pos_y_axis by lra. apply deg_half_pi.
Qed.

Example scenarioC_shows_0 :
  label (Protractor_.updateDisplay
           (protractorAt (QPoint_ 0 0) (QPoint_ 100 0) (QPoint_ 100 0) false))
  = Some 0.
Proof.
  cbn [label Protractor_.updateDisplay Protractor_.setLabel]. apply f_equal.
  rewrite angleDeg_plain by reflexivity.
  unfold rawDeg, math.pi.
  rewrite (threePointAngle_eval _ _ _ 0%Z 10000%Z) by reflexivity.
  unfold math.atan2. destruct (Rlt_dec 0 10000) as [_ | H]; [| lra].
  unfold Rdiv. rewrite !Rmult_0_l, atan_0. pose proof PI_RGT_0. field. lra.
Qed.

(** ** Handle positions and handle centers *)

Section Centers.

(** The determinant and the dot product of the arms between handle centers
    have the values of those between the positions, when the handles have
    one size. *)
Lemma centers_det_dot (wC w1 w2 : QWidget) :
  sameSize w1 wC -> sameSize w2 wC ->
  let d1 := psub (floatPoint (centerPoint w1)) (floatPoint (centerPoint wC)) in
  let d2 := psub (floatPoint (centerPoint w2)) (floatPoint (centerPoint wC)) in
  fval (nsub (nmul (xp d1) (yp d2)) (nmul (yp d1) (xp d2)))
  = IZR (cross (psub (pos w1) (pos wC)) (psub (pos w2) (pos wC)))
  /\ fval (nadd (nmul (xp d1) (xp d2)) (nmul (yp d1) (yp d2)))
     = IZR (dot (psub (pos w1) (pos wC)) (psub (pos w2) (pos wC))).
Proof.
  intros [Hw1 Hh1] [Hw2 Hh2]. cbv zeta.
  unfold cross, dot, floatPoint, centerPoint, pos, psub, QPoint_, QPointF_, of_real.
  cbn [xp yp nadd nsub nmul Number_int Number_pyfloat fadd fsub fmul fval].
  rewrite Hw1, Hh1, Hw2, Hh2.
  rewrite minus_IZR, plus_IZR, !mult_IZR, !minus_IZR.
  split; field.
Qed.

Lemma angle_centers (wC w1 w2 : QWidget) :
  sameSize w1 wC -> sameSize w2 wC ->
  (cross (psub (pos w1) (pos wC)) (psub (pos w2) (pos wC)) <> 0
   \/ 0 < dot (psub (pos w1) (pos wC)) (psub (pos w2) (pos wC)))%Z ->
  threePointAngle (pos w1) (pos wC) (pos w2)
  = threePointAngle (floatPoint (centerPoint w1)) (floatPoint (centerPoint wC))
                    (floatPoint (centerPoint w2)).
Proof.
  intros Hs1 Hs2 Hcond.
  destruct (centers_det_dot wC w1 w2 Hs1 Hs2) as [Hdet Hdot]. cbv zeta in Hdet, Hdot.
  rewrite threePointAngle_int.
  unfold threePointAngle at 1. cbn [to_float Floatable_pyfloat].
  rewrite atan2f_agree.
  - now rewrite Hdet, Hdot.
  - rewrite Hdet, Hdot. destruct Hcond as [Hc | Hd].
    + left. intros H0. now apply (eq_IZR _ 0) in H0.
    + right. now apply (IZR_lt 0).
Qed.

End Centers.

(** C7, as stated, fails: with the arms on one row, left and right of the
    center handle, the determinant computed from the handle centers is the
    float [-0.0] and the angle [-pi], where the positions give [+pi]. *)
Lemma centers_angle_differs_on_straight_line :
  let self := protractorAt (QPoint_ 0 0) (QPoint_ (-100) 0) (QPoint_ 100 0) false in
  sameSize (widget (handle1 self)) (widget (handleC self))
  /\ sameSize (widget (handle2 self)) (widget (handleC self))
  /\ threePointAngle (pos (widget (handle1 self)))
                     (pos (widget (handleC self)))
                     (pos (widget (handle2 self))) = PI
  /\ threePointAngle (floatPoint (centerPoint (widget (handle1 self))))
                     (floatPoint (centerPoint (widget (handleC self))))
                     (floatPoint (centerPoint (widget (handle2 self)))) = - PI
  /\ threePointAngle (pos (widget (handle1 self)))
                     (pos (widget (handleC self)))
                     (pos (widget (handle2 self)))
     <> threePointAngle (floatPoint (centerPoint (widget (handle1 self))))
                        (floatPoint (centerPoint (widget (handleC self))))
                        (floatPoint (centerPoint (widget (handle2 self)))).
Proof.
  cbv zeta.
  assert (Hpos : threePointAngle (QPoint_ (-100) 0) (QPoint_ 0 0) (QPoint_ 100 0) = PI)
    by (apply opposite_angle; reflexivity).
  assert (Hcen :
    threePointAngle
      (floatPoint (centerPoint (widget (handleAt (QPoint_ (-100) 0)))))
      (floatPoint (centerPoint (widget (handleAt (QPoint_ 0 0)))))
      (floatPoint (centerPoint (widget (handleAt (QPoint_ 100 0))))) = - PI).
  { unfold threePointAngle, math.atan2f.
    unfold floatPoint, centerPoint, handleAt, Handle_.move, Handle_.__init__,
      move, setGeometry, psub, QPoint_, QPointF_, of_real.
    cbn [xp yp nadd nsub nmul Number_pyfloat to_float Floatable_pyfloat
         widget wx wy wwidth wheight].
    match goal with
    | |- context [Req_dec_T ?v 0] =>
        destruct (Req_dec_T v 0) as [_ | Hne];
        [| exfalso; apply Hne; cbn [fval fsub fmul]; lra]
    end.
    rewrite (sign_negative (fadd _ _)) by (cbn [fval fadd fmul fsub]; lra).
    rewrite (sign_zero (fsub (fmul _ _) _)) by (cbn [fval fsub fmul]; lra).
    cbn [fneg fsub].
    rewrite (sign_zero (fmul _ _)) by (cbn [fval fsub fmul]; lra).
    cbn [fneg fmul].
    rewrite (sign_negative (fsub _ _)) by (cbn [fval fsub]; lra).
    rewrite (sign_zero (fsub _ _)) by (cbn [fval fsub]; lra).
    cbn [fneg fsub].
    rewrite (sign_positive (mkFloat _ _)) by (cbn [fval]; lra).
    cbn [andb xorb negb].
    rewrite (sign_zero (fmul _ _)) by (cbn [fval fsub fmul]; lra).
    cbn [fneg fmul].
    rewrite (sign_zero (fsub _ _)) by (cbn [fval fsub]; lra).
    cbn [fneg fsub].
    rewrite (sign_positive (mkFloat _ _)) by (cbn [fval]; lra).
    rewrite (sign_positive (fsub _ _)) by (cbn [fval fsub]; lra).
    reflexivity. }
  split; [split; reflexivity |]. split; [split; reflexivity |].
  split; [exact Hpos |]. split; [exact Hcen |].
  change (threePointAngle (QPoint_ (-100) 0) (QPoint_ 0 0) (QPoint_ 100 0)
          <> threePointAngle
               (floatPoint (centerPoint (widget (handleAt (QPoint_ (-100) 0)))))
               (floatPoint (centerPoint (widget (handleAt (QPoint_ 0 0)))))
               (floatPoint (centerPoint (widget (handleAt (QPoint_ 100 0)))))).
  rewrite Hpos, Hcen. pose proof PI_RGT_0. lra.
Qed.

(** C7, amended: when the three handles have the same width and height and
    the arms are not on one line through the center handle's position in
    opposite directions or degenerate (the cross product of the arms is not
    0, or their dot product is positive), the angle [updateDisplay] computes
    from the handles' top-left positions is the signed angle of the handles'
    center points, taken as (arm1, center, arm2), and the label shows that
    angle in degrees, inverted and wrapped.  A center point is the position
    plus half the size. *)
Theorem angle_of_positions_is_angle_of_centers (self : Protractor) :
  sameSize (widget (handle1 self)) (widget (handleC self)) ->
  sameSize (widget (handle2 self)) (widget (handleC self)) ->
  (cross (psub (pos (widget (handle1 self))) (pos (widget (handleC self))))
         (psub (pos (widget (handle2 self))) (pos (widget (handleC self)))) <> 0
   \/ 0 < dot (psub (pos (widget (handle1 self))) (pos (widget (handleC self))))
              (psub (pos (widget (handle2 self))) (pos (widget (handleC self)))))%Z ->
  let angle :=
    threePointAngle (floatPoint (centerPoint (widget (handle1 self))))
                    (floatPoint (centerPoint (widget (handleC self))))
                    (floatPoint (centerPoint (widget (handle2 self)))) in
  threePointAngle (pos (widget (handle1 self)))
                  (pos (widget (handleC self)))
                  (pos (widget (handle2 self))) = angle
  /\ label (Protractor_.updateDisplay self)
     = Some (let d := if angleInvert self
                      then 180 - 180 * angle / math.pi else 180 * angle / math.pi in
             if Rgt_dec d 180 then d - 360 else d)
  /\ xp (centerPoint (widget (handleC self)))
     = IZR (wx (widget (handleC self))) + IZR (wwidth (widget (handleC self))) / 2
  /\ yp (centerPoint (widget (handleC self)))
     = IZR (wy (widget (handleC self))) + IZR (wheight (widget (handleC self))) / 2.
Proof.
  intros Hs1 Hs2 Hcond. cbv zeta.
  pose proof (angle_centers _ _ _ Hs1 Hs2 Hcond) as Heq.
  split; [exact Heq |].
  split; [| split; reflexivity].
  rewrite <- Heq. reflexivity.
Qed.

Lemma angle_of_positions_is_angle_of_centers_witness :
  threePointAngle (pos (widget (handle1 Protractor_.__init__)))
                  (pos (widget (handleC Protractor_.__init__)))
                  (pos (widget (handle2 Protractor_.__init__))) =
  threePointAngle (floatPoint (centerPoint (widget (handle1 Protractor_.__init__))))
                  (floatPoint (centerPoint (widget (handleC Protractor_.__init__))))
                  (floatPoint (centerPoint (widget (handle2 Protractor_.__init__)))).
Proof.
  apply (angle_of_positions_is_angle_of_centers Protractor_.__init__).
  - split; reflexivity.
  - split; reflexivity.
  - left. discriminate.
Defined.

(** ** Dragging *)

(** C8, as stated, fails: dragging only the center handle from (0, 0) to
    (1, 1), with the arms left at (1, 0) and (0, 1), turns 90 degrees into
    -90 degrees. *)
Lemma center_drag_changes_angle :
  let self := Protractor_.updateDisplay
                (protractorAt (QPoint_ 0 0) (QPoint_ 1 0) (QPoint_ 0 1) false) in
  let pressed :=
    mkProtractor (Handle_.mousePressEvent (handleC self) (QPoint_ 0 0))
                 (handle1 self) (handle2 self)
                 (angleInvert self) (dragOffset self) (label self) in
  exists self' : Protractor,
    Protractor_.handleMoved pressed HC (QPoint_ 1 1) = inr self'
    /\ handle1 self' = handle1 self
    /\ handle2 self' = handle2 self
    /\ pos (widget (handleC self')) = padd (pos (widget (handleC self))) (QPoint_ 1 1)
    /\ label self = Some 90
    /\ label self' = Some (-90)
    /\ threePointAngle (pos (widget (handle1 self')))
                       (pos (widget (handleC self')))
                       (pos (widget (handle2 self')))
       <> threePointAngle (pos (widget (handle1 self)))
                          (pos (widget (handleC self)))
                          (pos (widget (handle2 self))).
Proof.
  cbv zeta. eexists. split; [reflexivity |].
  assert (Hbefore :
    threePointAngle (QPoint_ 1 0) (QPoint_ 0 0) (QPoint_ 0 1) = PI / 2).
  { rewrite (threePointAngle_eval _ _ _ 1%Z 0%Z) by reflexivity.
    apply atan2_pos_y_axis. lra. }
  assert (Hafter :
    threePointAngle (QPoint_ 1 0) (QPoint_ 1 1) (QPoint_ 0 1) = - (PI / 2)).
  { rewrite (threePointAngle_eval _ _ _ (-1)%Z 0%Z) by reflexivity.
    apply atan2_neg_y_axis. lra. }
  pose proof PI_RGT_0 as Hpi.
  repeat split.
  - cbn [label Protractor_.updateDisplay Protractor_.setLabel]. f_equal.
    rewrite angleDeg_plain by reflexivity.
    unfold rawDeg, math.pi.
    change (threePointAngle _ _ _)
      with (threePointAngle (QPoint_ 1 0) (QPoint_ 0 0) (QPoint_ 0 1)).
    rewrite Hbefore. field. lra.
  - cbn [label Protractor_.updateDisplay Protractor_.setLabel]. f_equal.
    rewrite angleDeg_plain by reflexivity.
    unfold rawDeg, math.pi.
    change (threePointAngle _ _ _)
      with (threePointAngle (QPoint_ 1 0) (QPoint_ 1 1) (QPoint_ 0 1)).
    rewrite Hafter. field. lra.
  - change (threePointAngle (QPoint_ 1 0) (QPoint_ 1 1) (QPoint_ 0 1)
            <> threePointAngle (QPoint_ 1 0) (QPoint_ 0 0) (QPoint_ 0 1)).
    rewrite Hbefore, Hafter. lra.
Qed.

(** C8, amended: a drag of the overlay background moves the three handles by
    the same offset, and that leaves the angle computed by [threePointAngle],
    and the displayed angle, unchanged. *)
Theorem overlay_drag_keeps_angle (self : Protractor) (pressPos eventPos : QPoint) :
  let diff := psub eventPos pressPos in
  exists self' : Protractor,
    Protractor_.mouseMoveEvent (Protractor_.mousePressEvent self pressPos) eventPos
      = inr self'
    /\ pos (widget (handleC self')) = padd (pos (widget (handleC self))) diff
    /\ pos (widget (handle1 self')) = padd (pos (widget (handle1 self))) diff
    /\ pos (widget (handle2 self')) = padd (pos (widget (handle2 self))) diff
    /\ threePointAngle (pos (widget (handle1 self')))
                       (pos (widget (handleC self')))
                       (pos (widget (handle2 self')))
       = threePointAngle (pos (widget (handle1 self)))
                         (pos (widget (handleC self)))
                         (pos (widget (handle2 self)))
    /\ label self' = Some (Protractor_.angleDeg self).
Proof.
  cbv zeta. eexists. split; [reflexivity |].
  repeat split.
  - apply (threePointAngle_translate
             (pos (widget (handle1 self))) (pos (widget (handleC self)))
             (pos (widget (handle2 self))) (psub eventPos pressPos)).
  - cbn [label Protractor_.updateDisplay Protractor_.setLabel]. f_equal.
    apply angleDeg_congr; [reflexivity |].
    apply (threePointAngle_translate
             (pos (widget (handle1 self))) (pos (widget (handleC self)))
             (pos (widget (handle2 self))) (psub eventPos pressPos)).
Qed.

(** ** The default configuration *)

Lemma init_angle :
  threePointAngle (pos (widget (handle1 Protractor_.__init__)))
                  (pos (widget (handleC Protractor_.__init__)))
                  (pos (widget (handle2 Protractor_.__init__))) = - (PI / 4).
Proof.
  rewrite (threePointAngle_eval _ _ _ (-22500)%Z 22500%Z) by reflexivity.
  replace (IZR (-22500)) with (- (22500)) by lra.
  apply atan2_diag_down. lra.
Qed.

Lemma init_angleDeg : Protractor_.angleDeg Protractor_.__init__ = - (45).
Proof.
  rewrite angleDeg_plain by reflexivity.
  unfold rawDeg. rewrite init_angle. unfold math.pi.
  pose proof PI_RGT_0. field. lra.
Qed.

(** A double click on the fresh overlay: 180 + 45 = 225 exceeds 180 and is
    shown as -135. *)
Example init_doubleClick_shows_minus_135 :
  label (Protractor_.mouseDoubleClickEvent Protractor_.__init__) = Some (- (135)).
Proof.
  cbn [label Protractor_.mouseDoubleClickEvent Protractor_.updateDisplay
       Protractor_.setLabel].
  apply f_equal. rewrite angleDeg_rawDeg.
  cbn [angleInvert negb Protractor_.__init__ Protractor_.updateDisplay
       Protractor_.setLabel].
  assert (Hraw : rawDeg Protractor_.__init__ = - (45)).
  { rewrite <- angleDeg_plain by reflexivity. apply init_angleDeg. }
  change (rawDeg _) with (rawDeg Protractor_.__init__).
  rewrite Hraw. cbv zeta.
  destruct (Rgt_dec (180 - - (45)) 180); lra.
Qed.

(** C9, as stated, fails: the angle computed from the default positions is
    -45 degrees. *)
Lemma init_angle_is_not_right :
  exists v : R,
    label Protractor_.__init__ = Some v
    /\ v = Protractor_.angleDeg Protractor_.__init__
    /\ Rabs v <> 90.
Proof.
  exists (Protractor_.angleDeg Protractor_.__init__).
  split; [reflexivity |]. split; [reflexivity |].
  rewrite init_angleDeg, Rabs_Ropp, Rabs_pos_eq; lra.
Qed.

(** C9, amended: the handles start at (50, 200) (center), (200, 200) (arm 1)
    and (200, 50) (arm 2); the angle computed from these positions is -45
    degrees, of absolute value 45.  (The right angle of the default triangle
    is at arm 1.) *)
Theorem init_angle_is_45 :
  pos (widget (handleC Protractor_.__init__)) = QPoint_ 50 200
  /\ pos (widget (handle1 Protractor_.__init__)) = QPoint_ 200 200
  /\ pos (widget (handle2 Protractor_.__init__)) = QPoint_ 200 50
  /\ label Protractor_.__init__ = Some (- (45))
  /\ Rabs (Protractor_.angleDeg Protractor_.__init__) = 45
  /\ threePointAngle (pos (widget (handleC Protractor_.__init__)))
                     (pos (widget (handle1 Protractor_.__init__)))
                     (pos (widget (handle2 Protractor_.__init__))) = PI / 2.
Proof.
  repeat split.
  - change (label Protractor_.__init__)
      with (Some (Protractor_.angleDeg Protractor_.__init__)).
    now rewrite init_angleDeg.
  - rewrite init_angleDeg, Rabs_Ropp, Rabs_pos_eq; lra.
  - rewrite (threePointAngle_eval _ _ _ 22500%Z 0%Z) by reflexivity.
    apply atan2_pos_y_axis. lra.
Qed.

(** ** [drawShortenedLine] *)

Section ShortenedLine.

Lemma length_is_dist (p1 p2 : QPointF) :
  math.sqrt (dotProduct (psub p2 p1) (psub p2 p1)) = dist p1 p2.
Proof. reflexivity. Qed.

Lemma dist_zero_iff (p1 p2 : QPointF) : dist p1 p2 = 0 <-> p1 = p2.
Proof.
  unfold dist. split.
  - intros H.
    apply sqrt_eq_0 in H; [| apply Rplus_le_le_0_compat; apply Rle_0_sqr].
    destruct p1 as [x1 y1], p2 as [x2 y2]. cbn [xp yp] in H.
    apply (Rplus_sqr_eq_0 (x2 - x1) (y2 - y1)) in H as [Hx Hy].
    f_equal; lra.
  - intros ->.
    replace ((xp p2 - xp p2) * (xp p2 - xp p2) + (yp p2 - yp p2) * (yp p2 - yp p2))
      with 0 by ring.
    apply sqrt_0.
Qed.

Lemma dist_nonneg (p1 p2 : QPointF) : 0 <= dist p1 p2.
Proof. apply sqrt_pos. Qed.

Lemma padd_pscale_0 (p d : QPointF) : padd p (pscale d 0) = p.
Proof.
  destruct p as [a b]. unfold padd, pscale. cbn. f_equal; ring.
Qed.

Lemma padd_pscale_1 (p1 p2 : QPointF) : padd p1 (pscale (psub p2 p1) 1) = p2.
Proof.
  destruct p1 as [a b], p2 as [c d]. unfold padd, pscale, psub. cbn. f_equal; ring.
Qed.

End ShortenedLine.

(** C4: when the segment has length zero, or the two shortening distances
    add up to its length or more, [drawShortenedLine] draws nothing; with
    both distances 0 the line it draws (for distinct end points) is the
    segment from [p1] to [p2] itself. *)
Theorem drawShortenedLine_degenerate_and_unshortened
    (qPainter : QPainter) (p1 p2 : QPointF) (shorten1 shorten2 : R) :
  (dist p1 p2 = 0 \/ shorten1 + shorten2 >= dist p1 p2 ->
   drawShortenedLine qPainter p1 p2 shorten1 shorten2 = qPainter)
  /\ (p1 <> p2 ->
      drawShortenedLine qPainter p1 p2 0 0 = qPainter ++ [Line p1 p2]).
Proof.
  split.
  - intros H. unfold drawShortenedLine. rewrite length_is_dist.
    destruct (Req_dec_T (dist p1 p2) 0) as [_ | Hne]; [reflexivity |].
    destruct (Rge_dec (shorten1 + shorten2) (dist p1 p2)) as [_ | Hlt];
      [reflexivity |].
    destruct H; contradiction.
  - intros Hne. unfold drawShortenedLine. rewrite length_is_dist.
    assert (Hpos : 0 < dist p1 p2).
    { destruct (dist_nonneg p1 p2) as [Hlt | Heq]; [assumption |].
      exfalso. apply Hne, dist_zero_iff. now symmetry. }
    destruct (Req_dec_T (dist p1 p2) 0) as [Heq | _]; [lra |].
    destruct (Rge_dec (0 + 0) (dist p1 p2)) as [Hge | _]; [lra |].
    replace (0 / dist p1 p2) with 0 by (field; lra).
    rewrite (Rmin_right 1 0) by lra. rewrite (Rmax_left 0 0) by lra.
    rewrite Rminus_0_r, padd_pscale_0, padd_pscale_1.
    reflexivity.
Qed.

Lemma drawShortenedLine_degenerate_and_unshortened_witness :
  drawShortenedLine [] (QPointF_ 0 0) (QPointF_ 0 0) 1 1 = []
  /\ drawShortenedLine [] (QPointF_ 0 0) (QPointF_ 3 4) 0 0
     = [Line (QPointF_ 0 0) (QPointF_ 3 4)].
Proof.
  split.
  - apply (drawShortenedLine_degenerate_and_unshortened
             [] (QPointF_ 0 0) (QPointF_ 0 0) 1 1).
    left. now apply dist_zero_iff.
  - apply (drawShortenedLine_degenerate_and_unshortened
             [] (QPointF_ 0 0) (QPointF_ 3 4) 0 0).
    intros H. apply (f_equal xp) in H. cbn in H. lra.
Defined.

(** ** [pointsOnLine] *)

Section PointsOnLine.

Lemma bind_ok {A B : Type} (v : A) (k : A -> Py B) : bind (inr v : Py A) k = k v.
Proof. reflexivity. Qed.

Lemma truediv_ok (a b : R) : b <> 0 -> truediv a b = inr (a / b).
Proof.
  intros Hb. unfold truediv.
  destruct (Req_dec_T b 0) as [Heq | _]; [contradiction | reflexivity].
Qed.

Lemma truediv_zero (a : R) : truediv a 0 = inl ZeroDivisionError.
Proof.
  unfold truediv.
  destruct (Req_dec_T 0 0) as [_ | Hne]; [reflexivity | now elim Hne].
Qed.

Lemma pdiv_ok (p : QPointF) (c : R) :
  c <> 0 -> pdiv p c = inr (mkPoint (xp p / c) (yp p / c)).
Proof.
  intros Hc. unfold pdiv.
  destruct (Req_dec_T c 0) as [Heq | _]; [contradiction | reflexivity].
Qed.

Lemma range_length (n : Z) : length (range n) = Z.to_nat n.
Proof. unfold range. now rewrite length_map, length_seq. Qed.

Lemma range_nth_error (n : Z) (i : nat) :
  (i < Z.to_nat n)%nat -> nth_error (range n) i = Some (Z.of_nat i).
Proof.
  intros Hi. unfold range.
  rewrite nth_error_map, nth_error_seq.
  apply Nat.ltb_lt in Hi. rewrite Hi. reflexivity.
Qed.

Lemma hd_error_nth_error {A : Type} (l : list A) : hd_error l = nth_error l 0.
Proof. now destruct l. Qed.

Lemma pieceCount_pos (p1 p2 : QPointF) (maxSpacing : R) :
  (1 <= pieceCount p1 p2 maxSpacing)%Z.
Proof. unfold pieceCount. apply Z.le_max_l. Qed.

Lemma pieceCount_nonzero (p1 p2 : QPointF) (maxSpacing : R) :
  IZR (pieceCount p1 p2 maxSpacing) <> 0.
Proof.
  pose proof (pieceCount_pos p1 p2 maxSpacing) as H.
  apply IZR_le in H. lra.
Qed.

(** The value [pointsOnLine] returns when it does not divide by zero. *)
Lemma pointsOnLine_value (p1 p2 : QPointF) (maxDistance : R) :
  maxDistance <> 0 ->
  let count := pieceCount p1 p2 maxDistance in
  let segment := mkPoint (xp (psub p2 p1) / IZR count)
                         (yp (psub p2 p1) / IZR count) in
  pointsOnLine p1 p2 maxDistance =
  inr (map (fun i => padd p1 (pscale segment (IZR i))) (range count) ++ [p2]).
Proof.
  intros Hm. cbv zeta. unfold pointsOnLine.
  rewrite !truediv_ok, !bind_ok by assumption.
  unfold math.ceil.
  rewrite (Rabs_minus_sym (xp p1)), (Rabs_minus_sym (yp p1)).
  fold (pieceCount p1 p2 maxDistance).
  rewrite pdiv_ok by apply pieceCount_nonzero.
  reflexivity.
Qed.

(** The [i]-th point of the list is [i / count] of the way from [p1] to
    [p2]. *)
Lemma points_nth_error (p1 p2 : QPointF) (count : Z) (i : nat) :
  (1 <= count)%Z -> (Z.of_nat i <= count)%Z ->
  let segment := mkPoint (xp (psub p2 p1) / IZR count)
                         (yp (psub p2 p1) / IZR count) in
  nth_error (map (fun i => padd p1 (pscale segment (IZR i))) (range count) ++ [p2]) i
  = Some (along p1 p2 (IZR (Z.of_nat i) / IZR count)).
Proof.
  intros Hc Hi. cbv zeta.
  assert (Hnz : IZR count <> 0) by (apply IZR_le in Hc; lra).
  destruct (Z.eq_dec (Z.of_nat i) count) as [Heq | Hneq].
  - rewrite nth_error_app2 by (rewrite length_map, range_length; lia).
    rewrite length_map, range_length.
    replace (i - Z.to_nat count)%nat with 0%nat by lia.
    cbn [nth_error]. rewrite Heq. apply f_equal.
    destruct p1 as [a b], p2 as [c d]. unfold along. cbn [xp yp].
    apply f_equal2; field; assumption.
  - rewrite nth_error_app1 by (rewrite length_map, range_length; lia).
    rewrite nth_error_map, range_nth_error by lia.
    cbn [option_map]. apply f_equal.
    destruct p1 as [a b], p2 as [c d].
    unfold along, padd, pscale, psub. cbn. apply f_equal2; field; assumption.
Qed.

End PointsOnLine.

(** Without the condition on the spacing the first division raises. *)
Example pointsOnLine_zero_spacing (p1 p2 : QPointF) :
  pointsOnLine p1 p2 0 = inl ZeroDivisionError.
Proof. unfold pointsOnLine. now rewrite truediv_zero. Qed.

(** The list [pointsOnLine] returns, point by point. *)
Lemma pointsOnLine_points (p1 p2 : QPointF) (maxSpacing : R) :
  maxSpacing > 0 ->
  exists points : list QPointF,
    pointsOnLine p1 p2 maxSpacing = inr points
    /\ length points = S (Z.to_nat (pieceCount p1 p2 maxSpacing))
    /\ (forall i : nat, (Z.of_nat i <= pieceCount p1 p2 maxSpacing)%Z ->
          nth_error points i =
          Some (along p1 p2 (IZR (Z.of_nat i) / IZR (pieceCount p1 p2 maxSpacing))))
    /\ (forall d : QPointF, last points d = p2).
Proof.
  intros Hm.
  pose proof (pieceCount_pos p1 p2 maxSpacing) as Hc.
  eexists. split; [apply pointsOnLine_value; lra |].
  cbv zeta.
  split; [rewrite length_app, length_map, range_length; cbn; lia |].
  split; [intros i Hi; now apply points_nth_error |].
  intros d. apply last_last.
Qed.

Lemma along_0 (p1 p2 : QPointF) (c : R) : along p1 p2 (IZR (Z.of_nat 0) / c) = p1.
Proof.
  destruct p1 as [a b]. unfold along. cbn. apply f_equal2; unfold Rdiv; ring.
Qed.

(** C5: for [maxSpacing > 0], [pointsOnLine] returns [count + 1] evenly
    spaced points, with [count = max(1, min(ceil(|dx| / maxSpacing),
    ceil(|dy| / maxSpacing)))]: the point of index [i] is [i / count] of the
    way from [p1] to [p2].  The list has at least 2 elements, starts with
    [p1] and ends with [p2]. *)
Theorem pointsOnLine_evenly_spaced (p1 p2 : QPointF) (maxSpacing : R) :
  maxSpacing > 0 ->
  let count :=
    Z.max 1 (Z.min (Zceil (Rabs (xp p2 - xp p1) / maxSpacing))
                   (Zceil (Rabs (yp p2 - yp p1) / maxSpacing))) in
  exists points : list QPointF,
    pointsOnLine p1 p2 maxSpacing = inr points
    /\ Z.of_nat (length points) = (count + 1)%Z
    /\ (forall i : nat, (Z.of_nat i <= count)%Z ->
          nth_error points i = Some (along p1 p2 (IZR (Z.of_nat i) / IZR count)))
    /\ (2 <= length points)%nat
    /\ hd_error points = Some p1
    /\ (forall d : QPointF, last points d = p2).
Proof.
  intros Hm. cbv zeta. fold (pieceCount p1 p2 maxSpacing).
  pose proof (pieceCount_pos p1 p2 maxSpacing) as Hc.
  destruct (pointsOnLine_points p1 p2 maxSpacing Hm)
    as (points & Hret & Hlen & Hnth & Hlast).
  exists points.
  split; [exact Hret |].
  split; [rewrite Hlen; lia |].
  split; [exact Hnth |].
  split; [rewrite Hlen; lia |].
  split; [| exact Hlast].
  rewrite hd_error_nth_error, Hnth by lia.
  now rewrite along_0.
Qed.

Lemma pointsOnLine_evenly_spaced_witness :
  exists points : list QPointF,
    pointsOnLine (QPointF_ 0 0) (QPointF_ 100 50) 40 = inr points
    /\ (2 <= length points)%nat
    /\ hd_error points = Some (QPointF_ 0 0)
    /\ last points (QPointF_ 0 0) = QPointF_ 100 50.
Proof.
  destruct (pointsOnLine_evenly_spaced (QPointF_ 0 0) (QPointF_ 100 50) 40)
    as (points & Hret & _ & _ & Hlen & Hhd & Hlast); [lra |].
  exists points. repeat split; [exact Hret | exact Hlen | exact Hhd | apply Hlast].
Defined.

(** ** [rectsOnLine] *)

Section RectsOnLine.

(** [zip(points[1:], points[:-1])]: the pair of index [i] is made of the
    points of index [i + 1] and [i]. *)
Lemma pairs_nth_error {A : Type} (l : list A) :
  forall (i : nat) (a b : A),
    nth_error l i = Some a -> nth_error l (S i) = Some b ->
    nth_error (combine (tl l) (removelast l)) i = Some (b, a).
Proof.
  induction l as [| x l IH]; intros i a b Ha Hb.
  - destruct i; discriminate.
  - destruct l as [| y l].
    + destruct i; discriminate.
    + change (nth_error ((y, x) :: combine (tl (y :: l)) (removelast (y :: l))) i
              = Some (b, a)).
      destruct i as [| i].
      * cbn in Ha, Hb. now inversion Ha; inversion Hb.
      * cbn [nth_error]. apply IH; assumption.
Qed.

Lemma pairs_length {A : Type} (l : list A) :
  length (combine (tl l) (removelast l)) = (length l - 1)%nat.
Proof.
  induction l as [| x l IH]; [reflexivity |].
  destruct l as [| y l]; [reflexivity |].
  change (length ((y, x) :: combine (tl (y :: l)) (removelast (y :: l)))
          = (length (x :: y :: l) - 1)%nat).
  cbn [length] in *. rewrite IH. lia.
Qed.

Lemma boundingBox_comm (a b : QPointF) (m : R) :
  boundingBox a b m = boundingBox b a m.
Proof.
  unfold boundingBox.
  now rewrite (Rmin_comm (xp a)), (Rmin_comm (yp a)),
              (Rmax_comm (xp a)), (Rmax_comm (yp a)).
Qed.

(** The rectangle built for one pair. *)
Lemma rect_is_boundingBox (pA pB : QPointF) (overlap : R) :
  adjusted (normalized (QRectF_ pA pB))
           (- overlap / 2) (- overlap / 2) (overlap / 2) (overlap / 2)
  = boundingBox pA pB (overlap / 2).
Proof.
  unfold normalized, QRectF_, adjusted, boundingBox. cbn [rx ry rw rh].
  destruct (Rlt_dec (xp pB - xp pA) 0) as [Hx | Hx];
    cbn [rx ry rw rh];
    destruct (Rlt_dec (yp pB - yp pA) 0) as [Hy | Hy];
    cbn [rx ry rw rh];
    [ rewrite (Rmin_right (xp pA)), (Rmax_left (xp pA)),
              (Rmin_right (yp pA)), (Rmax_left (yp pA)) by lra
    | rewrite (Rmin_right (xp pA)), (Rmax_left (xp pA)),
              (Rmin_left (yp pA)), (Rmax_right (yp pA)) by lra
    | rewrite (Rmin_left (xp pA)), (Rmax_right (xp pA)),
              (Rmin_right (yp pA)), (Rmax_left (yp pA)) by lra
    | rewrite (Rmin_left (xp pA)), (Rmax_right (xp pA)),
              (Rmin_left (yp pA)), (Rmax_right (yp pA)) by lra ];
    f_equal; lra.
Qed.

Lemma rectsOnLine_value (p1 p2 : QPointF) (maxDistance overlap : R)
    (points : list QPointF) :
  pointsOnLine p1 p2 maxDistance = inr points ->
  rectsOnLine p1 p2 maxDistance overlap =
  inr (map (fun pr : QPointF * QPointF => boundingBox (fst pr) (snd pr) (overlap / 2))
           (combine (tl points) (removelast points))).
Proof.
  intros Hp. unfold rectsOnLine. rewrite Hp, bind_ok.
  cbn [ret Monad_Py Monad_either]. apply f_equal.
  apply map_ext. intros [pA pB]. apply rect_is_boundingBox.
Qed.

(** A coordinate at distance at most [h] is within [h] on each axis. *)
Lemma dist_axes (q s : QPointF) (h : R) :
  dist q s <= h -> Rabs (xp s - xp q) <= h /\ Rabs (yp s - yp q) <= h.
Proof.
  unfold dist. intros Hd.
  set (a := xp s - xp q) in *. set (b := yp s - yp q) in *.
  assert (Hsq : 0 <= a * a + b * b)
    by (apply Rplus_le_le_0_compat; apply Rle_0_sqr).
  pose proof (sqrt_pos (a * a + b * b)) as Hpos.
  pose proof (sqrt_sqrt _ Hsq) as Hss.
  assert (Hh : 0 <= h) by lra.
  assert (Hle : a * a + b * b <= h * h).
  { rewrite <- Hss. apply Rmult_le_compat; assumption. }
  pose proof (Rle_0_sqr a) as Ha. pose proof (Rle_0_sqr b) as Hb.
  unfold Rsqr in Ha, Hb.
  split; rewrite <- (Rabs_pos_eq h Hh); apply Rsqr_le_abs_0; unfold Rsqr; lra.
Qed.

End RectsOnLine.

Section Coverage.

(** Every [x] in [[0, N]] lies in one of the [N] unit intervals. *)
Lemma find_piece (N : nat) :
  forall x : R,
    (1 <= N)%nat -> 0 <= x <= IZR (Z.of_nat N) ->
    exists i : nat,
      (i < N)%nat /\ IZR (Z.of_nat i) <= x <= IZR (Z.of_nat (S i)).
Proof.
  induction N as [| N IH]; intros x HN Hx; [lia |].
  rewrite Nat2Z.inj_succ, succ_IZR in Hx.
  destruct (Rle_dec x (IZR (Z.of_nat N))) as [Hle | Hgt].
  - destruct N as [| N].
    + exists 0%nat. split; [lia |]. cbn in *. lra.
    + destruct (IH x) as (i & Hi & Hb); [lia | lra |].
      exists i. split; [lia | exact Hb].
  - exists N. split; [lia |].
    rewrite Nat2Z.inj_succ, succ_IZR. lra.
Qed.

(** A point of the line between two others lies in their bounding box,
    coordinate by coordinate. *)
Lemma between (x d u v t : R) :
  u <= t <= v ->
  Rmin (x + u * d) (x + v * d) <= x + t * d <= Rmax (x + u * d) (x + v * d).
Proof.
  intros [Hu Hv].
  destruct (Rle_dec 0 d) as [Hd | Hd].
  - assert (u * d <= t * d) by (apply Rmult_le_compat_r; assumption).
    assert (t * d <= v * d) by (apply Rmult_le_compat_r; assumption).
    rewrite Rmin_left, Rmax_right by lra. lra.
  - assert (Hd' : 0 <= - d) by lra.
    assert (u * - d <= t * - d) by (apply Rmult_le_compat_r; assumption).
    assert (t * - d <= v * - d) by (apply Rmult_le_compat_r; assumption).
    rewrite Rmin_right, Rmax_left by lra. lra.
Qed.

Lemma Rabs_le_bounds (a h : R) : Rabs a <= h -> - h <= a <= h.
Proof.
  intros H. pose proof (Rle_abs a) as H1. pose proof (Rle_abs (- a)) as H2.
  rewrite Rabs_Ropp in H2. lra.
Qed.

Lemma covers_boundingBox (a b q s : QPointF) (h : R) :
  Rmin (xp a) (xp b) <= xp s <= Rmax (xp a) (xp b) ->
  Rmin (yp a) (yp b) <= yp s <= Rmax (yp a) (yp b) ->
  dist q s <= h ->
  covers (boundingBox a b h) q.
Proof.
  intros Hx Hy Hd.
  apply dist_axes in Hd as [Hdx Hdy].
  apply Rabs_le_bounds in Hdx. apply Rabs_le_bounds in Hdy.
  unfold covers, boundingBox. cbn [rx ry rw rh]. lra.
Qed.

(** The pieces cover the thickened segment. *)
Lemma pieces_cover (p1 p2 : QPointF) (count : Z) (h : R) (q : QPointF) :
  (1 <= count)%Z ->
  nearSegment p1 p2 h q ->
  exists i : nat,
    (Z.of_nat (S i) <= count)%Z
    /\ covers (boundingBox (along p1 p2 (IZR (Z.of_nat i) / IZR count))
                           (along p1 p2 (IZR (Z.of_nat (S i)) / IZR count)) h) q.
Proof.
  intros Hc (t & [Ht0 Ht1] & Hd).
  assert (Hpos : 0 < IZR count) by (apply IZR_le in Hc; lra).
  destruct (find_piece (Z.to_nat count) (t * IZR count)) as (i & Hi & Hlo & Hhi).
  - lia.
  - rewrite Z2Nat.id by lia. split; [apply Rmult_le_pos; lra |].
    rewrite <- (Rmult_1_l (IZR count)) at 2.
    apply Rmult_le_compat_r; lra.
  - exists i. split; [lia |].
    assert (Hu : IZR (Z.of_nat i) / IZR count <= t).
    { apply Rmult_le_reg_r with (IZR count); [assumption |].
      unfold Rdiv. rewrite Rmult_assoc, Rinv_l by lra. lra. }
    assert (Hv : t <= IZR (Z.of_nat (S i)) / IZR count).
    { apply Rmult_le_reg_r with (IZR count); [assumption |].
      unfold Rdiv. rewrite Rmult_assoc, Rinv_l by lra. lra. }
    apply covers_boundingBox with (s := along p1 p2 t);
      [apply between | apply between | exact Hd]; split; assumption.
Qed.

End Coverage.

(** C6: for [maxSpacing > 0] and every [overlap] (in particular
    [overlap >= 0]), [rectsOnLine] returns one rectangle per pair of
    consecutive points of [pointsOnLine], the bounding box of the pair grown
    by [overlap / 2] on its four sides; and every point within [overlap / 2]
    of the segment from [p1] to [p2] lies in one of the rectangles. *)
Theorem rectsOnLine_covers_thickened_segment
    (p1 p2 : QPointF) (maxSpacing overlap : R) :
  maxSpacing > 0 ->
  exists (points : list QPointF) (rects : list QRectF),
    pointsOnLine p1 p2 maxSpacing = inr points
    /\ rectsOnLine p1 p2 maxSpacing overlap = inr rects
    /\ S (length rects) = length points
    /\ (forall (i : nat) (a b : QPointF),
          nth_error points i = Some a -> nth_error points (S i) = Some b ->
          nth_error rects i = Some (boundingBox a b (overlap / 2)))
    /\ (forall q : QPointF,
          nearSegment p1 p2 (overlap / 2) q ->
          exists r : QRectF, In r rects /\ covers r q).
Proof.
  intros Hm.
  destruct (pointsOnLine_points p1 p2 maxSpacing Hm)
    as (points & Hret & Hlen & Hnth & _).
  pose proof (pieceCount_pos p1 p2 maxSpacing) as Hc.
  assert (Hrect : forall (i : nat) (a b : QPointF),
             nth_error points i = Some a -> nth_error points (S i) = Some b ->
             nth_error
               (map (fun pr : QPointF * QPointF =>
                       boundingBox (fst pr) (snd pr) (overlap / 2))
                    (combine (tl points) (removelast points))) i
             = Some (boundingBox a b (overlap / 2))).
  { intros i a b Ha Hb.
    rewrite nth_error_map, (pairs_nth_error points i a b Ha Hb).
    cbn [option_map fst snd]. now rewrite boundingBox_comm. }
  exists points. eexists.
  split; [exact Hret |].
  split; [apply rectsOnLine_value; exact Hret |].
  split; [rewrite length_map, pairs_length; lia |].
  split; [exact Hrect |].
  intros q Hq.
  destruct (pieces_cover p1 p2 (pieceCount p1 p2 maxSpacing) (overlap / 2) q Hc Hq)
    as (i & Hi & Hcov).
  eexists. split; [| exact Hcov].
  apply nth_error_In with i.
  apply Hrect; apply Hnth; lia.
Qed.

Lemma rectsOnLine_covers_thickened_segment_witness :
  exists (points : list QPointF) (rects : list QRectF),
    pointsOnLine (QPointF_ 0 0) (QPointF_ 100 50) 40 = inr points
    /\ rectsOnLine (QPointF_ 0 0) (QPointF_ 100 50) 40 5 = inr rects
    /\ S (length rects) = length points
    /\ (forall q : QPointF,
          nearSegment (QPointF_ 0 0) (QPointF_ 100 50) (5 / 2) q ->
          exists r : QRectF, In r rects /\ covers r q).
Proof.
  destruct (rectsOnLine_covers_thickened_segment
              (QPointF_ 0 0) (QPointF_ 100 50) 40 5)
    as (points & rects & Hp & Hr & Hlen & _ & Hcov); [lra |].
  exists points, rects. repeat split; assumption.
Defined.

(** * Further properties *)

(** ** The sign and the size of the angle *)

Section Atan2Quadrants.

Lemma atan_pos (v : R) : 0 < v -> 0 < atan v.
Proof. intros Hv. rewrite <- atan_0. now apply atan_increasing. Qed.

Lemma atan_neg (v : R) : v < 0 -> atan v < 0.
Proof. intros Hv. rewrite <- atan_0. now apply atan_increasing. Qed.

Lemma div_pos_neg (y x : R) : 0 < y -> x < 0 -> y / x < 0.
Proof.
  intros Hy Hx. assert (/ x < 0) by now apply Rinv_lt_0_compat.
  unfold Rdiv. nra.
Qed.

Lemma div_neg_neg (y x : R) : y < 0 -> x < 0 -> 0 < y / x.
Proof.
  intros Hy Hx. assert (/ x < 0) by now apply Rinv_lt_0_compat.
  unfold Rdiv. nra.
Qed.

(** The three cases of a positive first argument. *)
Lemma atan2_upper (y x : R) :
  0 < y ->
  0 < math.atan2 y x < PI
  /\ (0 < x -> math.atan2 y x < PI / 2)
  /\ (x = 0 -> math.atan2 y x = PI / 2)
  /\ (x < 0 -> PI / 2 < math.atan2 y x).
Proof.
  intros Hy. unfold math.atan2.
  pose proof PI_RGT_0 as Hpi.
  pose proof (atan_bound (y / x)) as [Hlo Hhi].
  destruct (Rlt_dec 0 x) as [Hx | Hx].
  - assert (0 < atan (y / x))
      by (apply atan_pos, Rdiv_lt_0_compat; assumption).
    repeat split; intros; lra.
  - destruct (Rlt_dec x 0) as [Hx' | Hx'].
    + destruct (Rle_dec 0 y) as [_ | Hn]; [| lra].
      pose proof (atan_neg _ (div_pos_neg y x Hy Hx')).
      repeat split; intros; lra.
    + destruct (Rlt_dec 0 y) as [_ | Hn]; [| lra].
      repeat split; intros; lra.
Qed.

Lemma atan2_lower (y x : R) :
  y < 0 ->
  - PI < math.atan2 y x < 0
  /\ (0 < x -> - (PI / 2) < math.atan2 y x)
  /\ (x = 0 -> math.atan2 y x = - (PI / 2))
  /\ (x < 0 -> math.atan2 y x < - (PI / 2)).
Proof.
  intros Hy.
  assert (Hopp : math.atan2 y x = - math.atan2 (- y) x).
  { rewrite <- (Ropp_involutive y) at 1. apply atan2_opp. intros [H _]. lra. }
  destruct (atan2_upper (- y) x) as (Hr & Hp & Hz & Hn); [lra |].
  rewrite Hopp.
  split; [lra |]. split; [| split].
  - intros Hx. specialize (Hp Hx). lra.
  - intros Hx. rewrite (Hz Hx). reflexivity.
  - intros Hx. specialize (Hn Hx). lra.
Qed.

Lemma atan2_level (x : R) : 0 <= x -> math.atan2 0 x = 0.
Proof.
  intros Hx. unfold math.atan2.
  destruct (Rlt_dec 0 x) as [_ | Hn].
  - unfold Rdiv. now rewrite Rmult_0_l, atan_0.
  - destruct (Rlt_dec x 0); [lra |].
    destruct (Rlt_dec 0 0); [lra | reflexivity].
Qed.

(** [atan2] sees the direction of [(x, y)] only. *)
Lemma atan2_scale (k y x : R) :
  0 < k -> math.atan2 (k * y) (k * x) = math.atan2 y x.
Proof.
  intros Hk. unfold math.atan2.
  destruct (Rlt_dec 0 x) as [Hx | Hx].
  - destruct (Rlt_dec 0 (k * x)) as [_ | Hn]; [| nra].
    f_equal. field. lra.
  - destruct (Rlt_dec 0 (k * x)) as [Hp | _]; [nra |].
    destruct (Rlt_dec x 0) as [Hx' | Hx'].
    + destruct (Rlt_dec (k * x) 0) as [_ | Hn]; [| nra].
      replace (k * y / (k * x)) with (y / x) by (field; lra).
      destruct (Rle_dec 0 y), (Rle_dec 0 (k * y)); try reflexivity; nra.
    + assert (x = 0) by lra. subst x.
      destruct (Rlt_dec (k * 0) 0) as [Hn | _]; [lra |].
      destruct (Rlt_dec 0 y), (Rlt_dec 0 (k * y)); try nra; try reflexivity.
      destruct (Rlt_dec y 0), (Rlt_dec (k * y) 0); try nra; reflexivity.
Qed.

End Atan2Quadrants.

Section AngleGeometry.

Lemma cross_diag (d : QPoint) : cross d d = 0%Z.
Proof. unfold cross. ring. Qed.

Lemma dot_diag_nonneg (d : QPoint) : (0 <= dot d d)%Z.
Proof. unfold dot. nia. Qed.

Lemma psub_padd_l (center d : QPoint) : psub (padd center d) center = d.
Proof.
  destruct d as [a b]. unfold psub, padd. cbn. f_equal; ring.
Qed.

End AngleGeometry.

(** The sign of the angle is the sign of the cross product of the two arms:
    positive cross product, angle in (0, pi); negative, angle in (-pi, 0);
    zero, angle 0 for arms in the same direction (or a degenerate arm) and
    pi for arms in opposite directions.  The same point as both arms gives
    0. *)
Theorem threePointAngle_sign (p1 center p2 : QPoint) :
  let d1 := psub p1 center in
  let d2 := psub p2 center in
  ((0 < cross d1 d2)%Z -> 0 < threePointAngle p1 center p2 < PI)
  /\ ((cross d1 d2 < 0)%Z -> - PI < threePointAngle p1 center p2 < 0)
  /\ (cross d1 d2 = 0%Z -> (0 <= dot d1 d2)%Z -> threePointAngle p1 center p2 = 0)
  /\ (cross d1 d2 = 0%Z -> (dot d1 d2 < 0)%Z -> threePointAngle p1 center p2 = PI)
  /\ threePointAngle p1 center p1 = 0.
Proof.
  cbv zeta. rewrite threePointAngle_int.
  repeat split.
  - apply atan2_upper. now apply (IZR_lt 0).
  - apply atan2_upper. now apply (IZR_lt 0).
  - apply atan2_lower. now apply (IZR_lt _ 0).
  - apply atan2_lower. now apply (IZR_lt _ 0).
  - intros -> Hd. apply atan2_level. now apply (IZR_le 0).
  - intros -> Hd. apply atan2_neg_axis. now apply (IZR_lt _ 0).
  - rewrite threePointAngle_int, cross_diag.
    apply atan2_level, (IZR_le 0), dot_diag_nonneg.
Qed.

Lemma threePointAngle_sign_witness :
  0 < threePointAngle (QPoint_ 100 0) (QPoint_ 0 0) (QPoint_ 50 50) < PI
  /\ - PI < threePointAngle (QPoint_ 50 50) (QPoint_ 0 0) (QPoint_ 100 0) < 0
  /\ threePointAngle (QPoint_ 10 0) (QPoint_ 0 0) (QPoint_ 20 0) = 0
  /\ threePointAngle (QPoint_ 10 0) (QPoint_ 0 0) (QPoint_ (-20) 0) = PI.
Proof.
  split; [| split; [| split]].
  - apply (threePointAngle_sign (QPoint_ 100 0) (QPoint_ 0 0) (QPoint_ 50 50)).
    reflexivity.
  - apply (threePointAngle_sign (QPoint_ 50 50) (QPoint_ 0 0) (QPoint_ 100 0)).
    reflexivity.
  - apply (threePointAngle_sign (QPoint_ 10 0) (QPoint_ 0 0) (QPoint_ 20 0));
      [reflexivity | discriminate].
  - apply (threePointAngle_sign (QPoint_ 10 0) (QPoint_ 0 0) (QPoint_ (-20) 0));
      reflexivity.
Defined.

(** The dot product of the arms tells an acute angle from a right and an
    obtuse one: positive, the angle is within 90 degrees; zero (with arms
    that are not degenerate), it is exactly 90 degrees either way; negative,
    it is beyond 90 degrees. *)
Theorem threePointAngle_acute_right_obtuse (p1 center p2 : QPoint) :
  let d1 := psub p1 center in
  let d2 := psub p2 center in
  ((0 < dot d1 d2)%Z -> Rabs (threePointAngle p1 center p2) < PI / 2)
  /\ (dot d1 d2 = 0%Z -> cross d1 d2 <> 0%Z ->
      Rabs (threePointAngle p1 center p2) = PI / 2)
  /\ ((dot d1 d2 < 0)%Z -> PI / 2 < Rabs (threePointAngle p1 center p2)).
Proof.
  cbv zeta. rewrite threePointAngle_int.
  set (c := cross (psub p1 center) (psub p2 center)).
  set (d := dot (psub p1 center) (psub p2 center)).
  pose proof PI_RGT_0 as Hpi.
  assert (Hcases : (0 < c)%Z \/ (c < 0)%Z \/ c = 0%Z) by lia.
  repeat split.
  - intros Hd. apply (IZR_lt 0) in Hd.
    destruct Hcases as [Hc | [Hc | Hc]].
    + apply (IZR_lt 0) in Hc.
      destruct (atan2_upper _ (IZR d) Hc) as (Hr & Hp & _).
      specialize (Hp Hd). rewrite Rabs_pos_eq; lra.
    + apply (IZR_lt _ 0) in Hc.
      destruct (atan2_lower _ (IZR d) Hc) as (Hr & Hp & _).
      specialize (Hp Hd). rewrite Rabs_left; lra.
    + rewrite Hc, atan2_level, Rabs_R0 by lra. lra.
  - intros Hd Hne. rewrite Hd.
    destruct Hcases as [Hc | [Hc | Hc]]; [| | contradiction].
    + apply (IZR_lt 0) in Hc.
      destruct (atan2_upper _ 0 Hc) as (_ & _ & Hz & _).
      rewrite Hz by reflexivity. rewrite Rabs_pos_eq; lra.
    + apply (IZR_lt _ 0) in Hc.
      destruct (atan2_lower _ 0 Hc) as (_ & _ & Hz & _).
      rewrite Hz by reflexivity. rewrite Rabs_left; lra.
  - intros Hd. apply (IZR_lt _ 0) in Hd.
    destruct Hcases as [Hc | [Hc | Hc]].
    + apply (IZR_lt 0) in Hc.
      destruct (atan2_upper _ (IZR d) Hc) as (Hr & _ & _ & Hn).
      specialize (Hn Hd). rewrite Rabs_pos_eq; lra.
    + apply (IZR_lt _ 0) in Hc.
      destruct (atan2_lower _ (IZR d) Hc) as (Hr & _ & _ & Hn).
      specialize (Hn Hd). rewrite Rabs_left; lra.
    + rewrite Hc, atan2_neg_axis, Rabs_pos_eq by lra. lra.
Qed.

Lemma threePointAngle_acute_right_obtuse_witness :
  Rabs (threePointAngle (QPoint_ 100 0) (QPoint_ 0 0) (QPoint_ 50 50)) < PI / 2
  /\ Rabs (threePointAngle (QPoint_ 100 0) (QPoint_ 0 0) (QPoint_ 0 (-70))) = PI / 2
  /\ PI / 2 < Rabs (threePointAngle (QPoint_ 100 0) (QPoint_ 0 0) (QPoint_ (-50) 50)).
Proof.
  split; [| split].
  - apply (threePointAngle_acute_right_obtuse
             (QPoint_ 100 0) (QPoint_ 0 0) (QPoint_ 50 50)).
    reflexivity.
  - apply (threePointAngle_acute_right_obtuse
             (QPoint_ 100 0) (QPoint_ 0 0) (QPoint_ 0 (-70)));
      [reflexivity | discriminate].
  - apply (threePointAngle_acute_right_obtuse
             (QPoint_ 100 0) (QPoint_ 0 0) (QPoint_ (-50) 50)).
    reflexivity.
Defined.

(** Only the directions of the arms matter: pushing an arm handle [k]
    times as far from the center along the same ray ([k > 0]) leaves the
    angle as it is. *)
Theorem threePointAngle_arm_length (center d1 d2 : QPoint) (k : Z) :
  (0 < k)%Z ->
  threePointAngle (padd center (QPoint_ (k * xp d1) (k * yp d1))) center
                  (padd center d2)
  = threePointAngle (padd center d1) center (padd center d2)
  /\ threePointAngle (padd center d1) center
                     (padd center (QPoint_ (k * xp d2) (k * yp d2)))
     = threePointAngle (padd center d1) center (padd center d2).
Proof.
  intros Hk. apply (IZR_lt 0) in Hk.
  rewrite !threePointAngle_int, !psub_padd_l.
  split.
  - replace (cross (QPoint_ (k * xp d1) (k * yp d1)) d2) with (k * cross d1 d2)%Z
      by (unfold cross, QPoint_; cbn [xp yp]; ring).
    replace (dot (QPoint_ (k * xp d1) (k * yp d1)) d2) with (k * dot d1 d2)%Z
      by (unfold dot, QPoint_; cbn [xp yp]; ring).
    rewrite !mult_IZR. now apply atan2_scale.
  - replace (cross d1 (QPoint_ (k * xp d2) (k * yp d2))) with (k * cross d1 d2)%Z
      by (unfold cross, QPoint_; cbn [xp yp]; ring).
    replace (dot d1 (QPoint_ (k * xp d2) (k * yp d2))) with (k * dot d1 d2)%Z
      by (unfold dot, QPoint_; cbn [xp yp]; ring).
    rewrite !mult_IZR. now apply atan2_scale.
Qed.

Lemma threePointAngle_arm_length_witness :
  threePointAngle (QPoint_ 350 200) (QPoint_ 50 200) (QPoint_ 200 50)
  = threePointAngle (QPoint_ 200 200) (QPoint_ 50 200) (QPoint_ 200 50).
Proof.
  apply (threePointAngle_arm_length
           (QPoint_ 50 200) (QPoint_ 150 0) (QPoint_ 150 (-150)) 2).
  reflexivity.
Defined.

(** ** Double click *)

Section DoubleClick.

Lemma toggled_rawDeg (self : Protractor) :
  rawDeg (Protractor_.mouseDoubleClickEvent self) = rawDeg self.
Proof. reflexivity. Qed.

Lemma toggled_angleInvert (self : Protractor) :
  angleInvert (Protractor_.mouseDoubleClickEvent self) = negb (angleInvert self).
Proof. reflexivity. Qed.

End DoubleClick.

(** A double click switches between an angle and its supplement: the
    absolute values of the number shown before and after add up to 180
    degrees, for every placement of the handles.  A second double click
    brings back the first reading. *)
Theorem doubleClick_shows_supplement (self : Protractor) :
  let shown := Protractor_.updateDisplay self in
  let toggled := Protractor_.mouseDoubleClickEvent shown in
  label shown = Some (Protractor_.angleDeg shown)
  /\ label toggled = Some (Protractor_.angleDeg toggled)
  /\ Rabs (Protractor_.angleDeg toggled) = 180 - Rabs (Protractor_.angleDeg shown)
  /\ Protractor_.mouseDoubleClickEvent toggled = shown.
Proof.
  cbv zeta. split; [reflexivity |]. split; [reflexivity |].
  split.
  - rewrite !angleDeg_rawDeg, toggled_rawDeg, toggled_angleInvert.
    change (rawDeg (Protractor_.updateDisplay self)) with (rawDeg self).
    change (angleInvert (Protractor_.updateDisplay self)) with (angleInvert self).
    pose proof (rawDeg_range self) as Hraw.
    cbv zeta. destruct (angleInvert self); cbn [negb];
      repeat match goal with
             | |- context [Rgt_dec ?d 180] => destruct (Rgt_dec d 180)
             end;
      unfold Rabs; repeat destruct Rcase_abs; lra.
  - unfold Protractor_.mouseDoubleClickEvent, Protractor_.updateDisplay,
      Protractor_.setLabel, Protractor_.angleDeg.
    cbn [handleC handle1 handle2 angleInvert dragOffset label].
    rewrite negb_involutive. reflexivity.
Qed.

(** ** Events *)

Section Events.

Lemma fresh_init : fresh Protractor_.__init__.
Proof. repeat split. Qed.

Lemma mouseMoveEvent_inv (h h' : Handle) (q : QPoint) :
  Handle_.mouseMoveEvent h q = inr h' ->
  exists off : QPoint,
    offset h = Some off
    /\ h' = Handle_.move h (psub (padd q (pos (widget h))) off).
Proof.
  unfold Handle_.mouseMoveEvent. destruct (offset h) as [off |]; [| discriminate].
  intros H. inversion H. now exists off.
Qed.

Lemma fresh_step (self self' : Protractor) (e : Event) :
  fresh self -> dispatch self e = inr self' -> fresh self'.
Proof.
  intros (HC_ & H1_ & H2_ & Hl) Hstep.
  destruct e as [which p | which p | p | p | |]; cbn in Hstep.
  - inversion Hstep; subst self'. destruct which; repeat split;
      try apply HC_; try apply H1_; try apply H2_; exact Hl.
  - destruct which; unfold Protractor_.handleMoved in Hstep.
    + destruct (Handle_.mouseMoveEvent (handleC self) p) as [err | h] eqn:Hm;
        [discriminate |].
      apply mouseMoveEvent_inv in Hm as (off & _ & ->).
      inversion Hstep; subst self'. repeat split;
        try apply HC_; try apply H1_; try apply H2_.
    + destruct (Handle_.mouseMoveEvent (handle1 self) p) as [err | h] eqn:Hm;
        [discriminate |].
      apply mouseMoveEvent_inv in Hm as (off & _ & ->).
      inversion Hstep; subst self'. repeat split;
        try apply HC_; try apply H1_; try apply H2_.
    + destruct (Handle_.mouseMoveEvent (handle2 self) p) as [err | h] eqn:Hm;
        [discriminate |].
      apply mouseMoveEvent_inv in Hm as (off & _ & ->).
      inversion Hstep; subst self'. repeat split;
        try apply HC_; try apply H1_; try apply H2_.
  - inversion Hstep; subst self'. repeat split;
      try apply HC_; try apply H1_; try apply H2_. exact Hl.
  - unfold Protractor_.mouseMoveEvent in Hstep.
    destruct (dragOffset self) as [off |]; [| discriminate].
    inversion Hstep; subst self'. repeat split;
      try apply HC_; try apply H1_; try apply H2_.
  - inversion Hstep; subst self'. repeat split;
      try apply HC_; try apply H1_; try apply H2_. exact Hl.
  - inversion Hstep; subst self'. repeat split;
      try apply HC_; try apply H1_; try apply H2_.
Qed.

End Events.

Section Reachable.

Lemma reachable_fresh (self : Protractor) : reachable self -> fresh self.
Proof.
  induction 1 as [| self self' e _ IH Hstep].
  - apply fresh_init.
  - now apply (fresh_step self self' e).
Qed.

Lemma angleDeg_range (self : Protractor) :
  -180 < Protractor_.angleDeg self <= 180.
Proof.
  rewrite angleDeg_rawDeg. cbv zeta.
  pose proof (rawDeg_range self) as Hraw.
  destruct (angleInvert self);
    match goal with |- context [Rgt_dec ?d 180] => destruct (Rgt_dec d 180) end;
    lra.
Qed.

End Reachable.

(** In every state the overlay reaches from its construction, by any
    sequence of presses, moves, releases and double clicks on the handles
    and on the background, the three handles are still 31 by 31, and the
    label shows the angle of the present handle positions, a number in
    (-180, 180]: the label is never stale. *)
Theorem label_never_stale (self : Protractor) :
  reachable self ->
  (forall which : HandleId, size31 (handleOf self which))
  /\ label self = Some (Protractor_.angleDeg self)
  /\ (exists v : R, label self = Some v /\ -180 < v <= 180).
Proof.
  intros Hr. destruct (reachable_fresh self Hr) as (HC_ & H1_ & H2_ & Hl).
  split; [intros []; assumption |].
  split; [exact Hl |].
  exists (Protractor_.angleDeg self). split; [exact Hl | apply angleDeg_range].
Qed.

Lemma label_never_stale_witness :
  let self := Protractor_.mouseDoubleClickEvent Protractor_.__init__ in
  label self = Some (Protractor_.angleDeg self).
Proof.
  apply (label_never_stale (Protractor_.mouseDoubleClickEvent Protractor_.__init__)).
  apply (reachable_step Protractor_.__init__ _ MouseDoubleClick).
  - apply reachable_init.
  - reflexivity.
Defined.

(** Dragging a handle that was pressed at [off]: a move event at [q] (both
    relative to the handle) displaces this handle by [q - off] and nothing
    else; the other two handles, the sizes and [angleInvert] stay, the
    label is brought up to date, and [offset] stays [off] for the next move
    event. *)
Theorem handle_drag (self : Protractor) (which : HandleId) (off q : QPoint) :
  offset (handleOf self which) = Some off ->
  exists self' : Protractor,
    dispatch self (HandleMove which q) = inr self'
    /\ pos (widget (handleOf self' which))
       = padd (pos (widget (handleOf self which))) (psub q off)
    /\ wwidth (widget (handleOf self' which)) = wwidth (widget (handleOf self which))
    /\ wheight (widget (handleOf self' which)) = wheight (widget (handleOf self which))
    /\ offset (handleOf self' which) = Some off
    /\ (forall other : HandleId,
          other <> which -> handleOf self' other = handleOf self other)
    /\ angleInvert self' = angleInvert self
    /\ label self' = Some (Protractor_.angleDeg self').
Proof.
  intros Ho.
  assert (Hpos : forall h : Handle,
            pos (widget (Handle_.move h (psub (padd q (pos (widget h))) off)))
            = padd (pos (widget h)) (psub q off)).
  { intros h. unfold Handle_.move, move, pos, psub, padd, QPoint_.
    cbn. f_equal; ring. }
  destruct which; cbn [handleOf] in Ho |- *; cbn [dispatch];
    unfold Protractor_.handleMoved, Handle_.mouseMoveEvent; rewrite Ho;
    eexists; (split; [reflexivity |]);
    cbn [handleC handle1 handle2 Protractor_.updateDisplay Protractor_.setLabel
         angleInvert label];
    (split; [apply Hpos |]);
    (split; [reflexivity |]); (split; [reflexivity |]);
    (split; [exact Ho |]);
    (split; [intros []; intros Hne; try reflexivity; now elim Hne |]);
    split; reflexivity.
Qed.

Lemma handle_drag_witness :
  exists self' : Protractor,
    dispatch (Protractor_.handlePressed Protractor_.__init__ H1 (QPoint_ 15 15))
             (HandleMove H1 (QPoint_ 25 5)) = inr self'
    /\ pos (widget (handle1 self')) = QPoint_ 210 190.
Proof.
  destruct (handle_drag
              (Protractor_.handlePressed Protractor_.__init__ H1 (QPoint_ 15 15))
              H1 (QPoint_ 15 15) (QPoint_ 25 5))
    as (self' & Hd & Hp & _); [reflexivity |].
  exists self'. split; [exact Hd | exact Hp].
Defined.

(** Dragging the background: after a press at [p], two move events at [q1]
    and then [q2] leave every handle displaced by [q2 - p], whatever [q1]
    was, and the number in the label is the one of the start. *)
Theorem overlay_drag_telescopes (self : Protractor) (p q1 q2 : QPoint) :
  exists s1 s2 : Protractor,
    dispatch (Protractor_.mousePressEvent self p) (MouseMove q1) = inr s1
    /\ dispatch s1 (MouseMove q2) = inr s2
    /\ (forall which : HandleId,
          pos (widget (handleOf s2 which))
          = padd (pos (widget (handleOf self which))) (psub q2 p))
    /\ dragOffset s2 = Some q2
    /\ label s2 = Some (Protractor_.angleDeg self).
Proof.
  do 2 eexists. split; [reflexivity |]. split; [reflexivity |].
  assert (Hpos : forall h : Handle,
            padd (padd (pos (widget h)) (psub q1 p)) (psub q2 q1)
            = padd (pos (widget h)) (psub q2 p)).
  { intros h. unfold pos, psub, padd, QPoint_. cbn. f_equal; ring. }
  split; [intros []; apply Hpos |].
  split; [reflexivity |].
  cbn [label Protractor_.updateDisplay Protractor_.setLabel]. apply f_equal.
  apply angleDeg_congr; [reflexivity |].
  cbn [handleC handle1 handle2 widget Handle_.move Protractor_.updateDisplay
       Protractor_.setLabel Protractor_.mousePressEvent].
  change (threePointAngle
            (padd (padd (pos (widget (handle1 self))) (psub q1 p)) (psub q2 q1))
            (padd (padd (pos (widget (handleC self))) (psub q1 p)) (psub q2 q1))
            (padd (padd (pos (widget (handle2 self))) (psub q1 p)) (psub q2 q1))
          = threePointAngle (pos (widget (handle1 self)))
                            (pos (widget (handleC self)))
                            (pos (widget (handle2 self)))).
  now rewrite !threePointAngle_translate.
Qed.

(** ** Where the shortened line lies *)

Section Shortening.

Lemma along_start (p1 p2 : QPointF) : along p1 p2 0 = p1.
Proof.
  destruct p1 as [a b]. unfold along. cbn. apply f_equal2; ring.
Qed.

Lemma along_end (p1 p2 : QPointF) : along p1 p2 1 = p2.
Proof.
  destruct p1 as [a b], p2 as [c d]. unfold along. cbn. apply f_equal2; ring.
Qed.

Lemma padd_pscale_along (p1 p2 : QPointF) (t : R) :
  padd p1 (pscale (psub p2 p1) t) = along p1 p2 t.
Proof.
  unfold padd, pscale, psub, along. cbn. apply f_equal2; ring.
Qed.

(** Distances along a segment are proportional to the parameter. *)
Lemma dist_along (p1 p2 : QPointF) (t1 t2 : R) :
  dist (along p1 p2 t1) (along p1 p2 t2) = Rabs (t2 - t1) * dist p1 p2.
Proof.
  unfold dist, along. cbn [xp yp].
  set (dx := xp p2 - xp p1). set (dy := yp p2 - yp p1).
  replace ((xp p1 + t2 * dx - (xp p1 + t1 * dx)) * (xp p1 + t2 * dx - (xp p1 + t1 * dx))
           + (yp p1 + t2 * dy - (yp p1 + t1 * dy)) * (yp p1 + t2 * dy - (yp p1 + t1 * dy)))
    with (Rsqr (t2 - t1) * (dx * dx + dy * dy)) by (unfold Rsqr; ring).
  rewrite sqrt_mult_alt by apply Rle_0_sqr.
  now rewrite sqrt_Rsqr_abs.
Qed.

(** The fraction [max(0, min(1, s / length))] of the code. *)
Lemma clamp_bounds (v : R) : 0 <= Rmax 0 (Rmin 1 v) <= 1.
Proof.
  unfold Rmax, Rmin.
  destruct (Rle_dec 1 v); destruct (Rle_dec 0 _); lra.
Qed.

Lemma clamp_id (v : R) : 0 <= v <= 1 -> Rmax 0 (Rmin 1 v) = v.
Proof.
  intros Hv. unfold Rmax, Rmin.
  destruct (Rle_dec 1 v); destruct (Rle_dec 0 _); lra.
Qed.

Lemma clamp_sum (a b : R) :
  a + b < 1 -> Rmax 0 (Rmin 1 a) + Rmax 0 (Rmin 1 b) <= 1.
Proof.
  intros Hab. unfold Rmax, Rmin.
  destruct (Rle_dec 1 a); destruct (Rle_dec 1 b);
    repeat match goal with |- context [Rle_dec 0 ?v] => destruct (Rle_dec 0 v) end;
    lra.
Qed.

(** The line drawn when the guard lets the call through. *)
Lemma drawShortenedLine_drawn (qPainter : QPainter) (p1 p2 : QPointF)
    (shorten1 shorten2 : R) :
  dist p1 p2 <> 0 -> shorten1 + shorten2 < dist p1 p2 ->
  drawShortenedLine qPainter p1 p2 shorten1 shorten2
  = qPainter ++ [Line (along p1 p2 (Rmax 0 (Rmin 1 (shorten1 / dist p1 p2))))
                      (along p1 p2 (1 - Rmax 0 (Rmin 1 (shorten2 / dist p1 p2))))].
Proof.
  intros Hne Hlt. unfold drawShortenedLine. rewrite length_is_dist.
  destruct (Req_dec_T (dist p1 p2) 0) as [Heq | _]; [contradiction |].
  destruct (Rge_dec (shorten1 + shorten2) (dist p1 p2)) as [Hge | _]; [lra |].
  rewrite !padd_pscale_along. reflexivity.
Qed.

Lemma drawShortenedLine_degenerate_case1 (qPainter : QPainter) (p1 p2 : QPointF)
    (shorten1 shorten2 : R) :
  dist p1 p2 = 0 -> drawShortenedLine qPainter p1 p2 shorten1 shorten2 = qPainter.
Proof.
  intros Heq. unfold drawShortenedLine. rewrite length_is_dist.
  destruct (Req_dec_T (dist p1 p2) 0) as [_ | Hne]; [reflexivity | contradiction].
Qed.

Lemma drawShortenedLine_degenerate_case2 (qPainter : QPainter) (p1 p2 : QPointF)
    (shorten1 shorten2 : R) :
  shorten1 + shorten2 >= dist p1 p2 ->
  drawShortenedLine qPainter p1 p2 shorten1 shorten2 = qPainter.
Proof.
  intros Hge. unfold drawShortenedLine. rewrite length_is_dist.
  destruct (Req_dec_T (dist p1 p2) 0) as [_ | Hne]; [reflexivity |].
  destruct (Rge_dec (shorten1 + shorten2) (dist p1 p2)) as [_ | Hlt];
    [reflexivity | contradiction].
Qed.

Lemma fractions_sum (s1 s2 L : R) : 0 < L -> s1 + s2 < L -> s1 / L + s2 / L < 1.
Proof.
  intros HL Hlt.
  apply Rmult_lt_reg_r with L; [assumption |].
  replace ((s1 / L + s2 / L) * L) with (s1 + s2) by (field; lra).
  lra.
Qed.

End Shortening.

(** Whatever the two shortening distances are, negative or larger than the
    segment, [drawShortenedLine] keeps the lines drawn before and adds at
    most one line; the line it adds lies on the segment from [p1] to [p2]
    and runs in the same direction: its ends are at fractions
    [0 <= t1 <= t2 <= 1] of the way. *)
Theorem drawShortenedLine_within_segment
    (qPainter : QPainter) (p1 p2 : QPointF) (shorten1 shorten2 : R) :
  drawShortenedLine qPainter p1 p2 shorten1 shorten2 = qPainter
  \/ exists t1 t2 : R,
       0 <= t1 /\ t1 <= t2 /\ t2 <= 1
       /\ drawShortenedLine qPainter p1 p2 shorten1 shorten2
          = qPainter ++ [Line (along p1 p2 t1) (along p1 p2 t2)].
Proof.
  destruct (Req_dec_T (dist p1 p2) 0) as [Heq | Hne].
  { left. apply drawShortenedLine_degenerate_case1. exact Heq. }
  destruct (Rge_dec (shorten1 + shorten2) (dist p1 p2)) as [Hge | Hlt].
  { left. apply drawShortenedLine_degenerate_case2. exact Hge. }
  right.
  assert (HL : 0 < dist p1 p2) by (pose proof (dist_nonneg p1 p2); lra).
  assert (Hlt' : shorten1 + shorten2 < dist p1 p2) by lra.
  pose proof (clamp_bounds (shorten1 / dist p1 p2)) as H1.
  pose proof (clamp_bounds (shorten2 / dist p1 p2)) as H2.
  pose proof (clamp_sum _ _ (fractions_sum _ _ _ HL Hlt')) as Hs.
  eexists. eexists.
  split; [| split; [| split; [| apply drawShortenedLine_drawn; assumption]]]; lra.
Qed.

Lemma drawShortenedLine_ends
    (qPainter : QPainter) (p1 p2 : QPointF) (shorten1 shorten2 : R) :
  0 <= shorten1 -> 0 <= shorten2 -> shorten1 + shorten2 < dist p1 p2 ->
  exists a b : QPointF,
    drawShortenedLine qPainter p1 p2 shorten1 shorten2 = qPainter ++ [Line a b]
    /\ dist p1 a = shorten1
    /\ dist b p2 = shorten2
    /\ dist a b = dist p1 p2 - shorten1 - shorten2.
Proof.
  intros H1 H2 Hlt.
  assert (HL : 0 < dist p1 p2) by lra.
  assert (Hf1 : 0 <= shorten1 / dist p1 p2 <= 1).
  { split; [apply Rmult_le_pos; [lra | left; now apply Rinv_0_lt_compat] |].
    apply Rmult_le_reg_r with (dist p1 p2); [assumption |].
    replace (shorten1 / dist p1 p2 * dist p1 p2) with shorten1 by (field; lra).
    lra. }
  assert (Hf2 : 0 <= shorten2 / dist p1 p2 <= 1).
  { split; [apply Rmult_le_pos; [lra | left; now apply Rinv_0_lt_compat] |].
    apply Rmult_le_reg_r with (dist p1 p2); [assumption |].
    replace (shorten2 / dist p1 p2 * dist p1 p2) with shorten2 by (field; lra).
    lra. }
  pose proof (fractions_sum _ _ _ HL Hlt) as Hsum.
  exists (along p1 p2 (shorten1 / dist p1 p2)),
         (along p1 p2 (1 - shorten2 / dist p1 p2)).
  split.
  { rewrite drawShortenedLine_drawn by lra.
    now rewrite !clamp_id by assumption. }
  split; [| split].
  - replace (dist p1 (along p1 p2 (shorten1 / dist p1 p2)))
      with (dist (along p1 p2 0) (along p1 p2 (shorten1 / dist p1 p2)))
      by now rewrite along_start.
    rewrite dist_along.
    rewrite Rminus_0_r, Rabs_pos_eq by lra. field. lra.
  - replace (dist (along p1 p2 (1 - shorten2 / dist p1 p2)) p2)
      with (dist (along p1 p2 (1 - shorten2 / dist p1 p2)) (along p1 p2 1))
      by now rewrite along_end.
    rewrite dist_along.
    replace (1 - (1 - shorten2 / dist p1 p2)) with (shorten2 / dist p1 p2) by ring.
    rewrite Rabs_pos_eq by lra. field. lra.
  - rewrite dist_along, Rabs_pos_eq by lra. field. lra.
Qed.

(** With non-negative shortening distances that leave something of the
    segment, exactly one line is drawn; it starts [shorten1] away from
    [p1], ends [shorten2] away from [p2], and its length is the length of
    the segment less the two distances. *)
Theorem drawShortenedLine_exact
    (qPainter : QPainter) (p1 p2 : QPointF) (shorten1 shorten2 : R) :
  0 <= shorten1 -> 0 <= shorten2 -> shorten1 + shorten2 < dist p1 p2 ->
  exists a b : QPointF,
    drawShortenedLine qPainter p1 p2 shorten1 shorten2 = qPainter ++ [Line a b]
    /\ dist p1 a = shorten1
    /\ dist b p2 = shorten2
    /\ dist a b = dist p1 p2 - shorten1 - shorten2.
Proof. apply drawShortenedLine_ends. Qed.

Lemma drawShortenedLine_exact_witness :
  exists a b : QPointF,
    drawShortenedLine [] (QPointF_ 0 0) (QPointF_ 3 4) 1 2 = [Line a b]
    /\ dist (QPointF_ 0 0) a = 1
    /\ dist b (QPointF_ 3 4) = 2.
Proof.
  assert (Hd : dist (QPointF_ 0 0) (QPointF_ 3 4) = 5).
  { unfold dist, QPointF_. cbn [xp yp].
    replace ((3 - 0) * (3 - 0) + (4 - 0) * (4 - 0)) with (5 * 5) by ring.
    apply sqrt_square. lra. }
  destruct (drawShortenedLine_exact [] (QPointF_ 0 0) (QPointF_ 3 4) 1 2)
    as (a & b & Hdraw & Ha & Hb & _); [lra | lra | rewrite Hd; lra |].
  exists a, b. repeat split; assumption.
Defined.

(** ** More on [pointsOnLine] and [rectsOnLine] *)

Section Spacing.

(** One coordinate's step is within the spacing when its own count is the
    governing one. *)
Lemma step_bound (d m : R) (c : Z) :
  0 < m -> Rabs d <= m * IZR c -> Rabs d / IZR (Z.max 1 c) <= m.
Proof.
  intros Hm Hd. pose proof (Rabs_pos d) as Hpos.
  destruct (Z_le_gt_dec c 0) as [Hc | Hc].
  - rewrite Z.max_l by lia.
    apply IZR_le in Hc.
    assert (Rabs d = 0) by nra.
    replace (Rabs d / 1) with (Rabs d) by field. lra.
  - rewrite Z.max_r by lia.
    assert (Hc' : 0 < IZR c) by (apply (IZR_lt 0); lia).
    apply Rmult_le_reg_r with (IZR c); [assumption |].
    replace (Rabs d / IZR c * IZR c) with (Rabs d) by (field; lra).
    assumption.
Qed.

Lemma ceil_covers (d m : R) : 0 < m -> Rabs d <= m * IZR (Zceil (Rabs d / m)).
Proof.
  intros Hm. pose proof (Zceil_bound (Rabs d / m)) as [_ Hhi].
  apply Rmult_le_compat_l with (r := m) in Hhi; [| lra].
  replace (m * (Rabs d / m)) with (Rabs d) in Hhi by (field; lra).
  assumption.
Qed.

Lemma pieceCount_step (p1 p2 : QPointF) (m : R) :
  0 < m ->
  Rmin (Rabs (xp p2 - xp p1) / IZR (pieceCount p1 p2 m))
       (Rabs (yp p2 - yp p1) / IZR (pieceCount p1 p2 m)) <= m.
Proof.
  intros Hm. unfold pieceCount.
  set (cX := Zceil (Rabs (xp p2 - xp p1) / m)).
  set (cY := Zceil (Rabs (yp p2 - yp p1) / m)).
  destruct (Z.min_spec cX cY) as [[_ ->] | [_ ->]].
  - eapply Rle_trans; [apply Rmin_l |]. apply step_bound; [assumption |].
    now apply ceil_covers.
  - eapply Rle_trans; [apply Rmin_r |]. apply step_bound; [assumption |].
    now apply ceil_covers.
Qed.

Lemma Rabs_div_pos (a n : R) : 0 < n -> Rabs (a / n) = Rabs a / n.
Proof.
  intros Hn. unfold Rdiv. rewrite Rabs_mult, (Rabs_pos_eq (/ n)); [reflexivity |].
  left. now apply Rinv_0_lt_compat.
Qed.

(** The rectangles, one by one. *)
Lemma rectsOnLine_rects (p1 p2 : QPointF) (maxSpacing overlap : R) :
  maxSpacing > 0 ->
  exists rects : list QRectF,
    rectsOnLine p1 p2 maxSpacing overlap = inr rects
    /\ length rects = Z.to_nat (pieceCount p1 p2 maxSpacing)
    /\ (forall i : nat,
          (i < Z.to_nat (pieceCount p1 p2 maxSpacing))%nat ->
          nth_error rects i =
          Some (boundingBox
                  (along p1 p2 (IZR (Z.of_nat i) / IZR (pieceCount p1 p2 maxSpacing)))
                  (along p1 p2 (IZR (Z.of_nat (S i)) / IZR (pieceCount p1 p2 maxSpacing)))
                  (overlap / 2))).
Proof.
  intros Hm.
  destruct (pointsOnLine_points p1 p2 maxSpacing Hm)
    as (points & Hret & Hlen & Hnth & _).
  pose proof (pieceCount_pos p1 p2 maxSpacing) as Hc.
  eexists. split; [apply rectsOnLine_value; exact Hret |].
  split; [rewrite length_map, pairs_length, Hlen; lia |].
  intros i Hi.
  rewrite nth_error_map.
  rewrite (pairs_nth_error points i _ _ (Hnth i ltac:(lia)) (Hnth (S i) ltac:(lia))).
  cbn [option_map fst snd]. now rewrite boundingBox_comm.
Qed.

Lemma In_rects (p1 p2 : QPointF) (maxSpacing overlap : R) (rects : list QRectF)
    (r : QRectF) :
  maxSpacing > 0 ->
  rectsOnLine p1 p2 maxSpacing overlap = inr rects -> In r rects ->
  exists t1 t2 : R,
    0 <= t1 <= 1 /\ 0 <= t2 <= 1
    /\ r = boundingBox (along p1 p2 t1) (along p1 p2 t2) (overlap / 2).
Proof.
  intros Hm Hret Hin.
  destruct (rectsOnLine_rects p1 p2 maxSpacing overlap Hm)
    as (rects' & Hret' & Hlen & Hnth).
  rewrite Hret in Hret'. inversion Hret'; subst rects'.
  apply In_nth_error in Hin as (i & Hi).
  assert (Hlt : (i < Z.to_nat (pieceCount p1 p2 maxSpacing))%nat).
  { rewrite <- Hlen. apply nth_error_Some. now rewrite Hi. }
  rewrite (Hnth i Hlt) in Hi. inversion Hi.
  pose proof (pieceCount_pos p1 p2 maxSpacing) as Hc.
  assert (Hn : 0 < IZR (pieceCount p1 p2 maxSpacing)) by (apply (IZR_lt 0); lia).
  assert (Hfrac : forall j : nat,
            (Z.of_nat j <= pieceCount p1 p2 maxSpacing)%Z ->
            0 <= IZR (Z.of_nat j) / IZR (pieceCount p1 p2 maxSpacing) <= 1).
  { intros j Hj. apply IZR_le in Hj.
    assert (0 <= IZR (Z.of_nat j)) by (apply (IZR_le 0); lia).
    split.
    - apply Rmult_le_pos; [assumption | left; now apply Rinv_0_lt_compat].
    - apply Rmult_le_reg_r with (IZR (pieceCount p1 p2 maxSpacing)); [assumption |].
      unfold Rdiv. rewrite Rmult_assoc, Rinv_l by lra. lra. }
  do 2 eexists. split; [apply (Hfrac i); lia |].
  split; [apply (Hfrac (S i)); lia | reflexivity].
Qed.

(** A bounding box of two points of the segment lies in the bounding box of
    its ends. *)
Lemma boundingBox_inside (p1 p2 : QPointF) (t1 t2 h : R) (q : QPointF) :
  0 <= t1 <= 1 -> 0 <= t2 <= 1 ->
  covers (boundingBox (along p1 p2 t1) (along p1 p2 t2) h) q ->
  covers (boundingBox p1 p2 h) q.
Proof.
  intros Ht1 Ht2.
  pose proof (between (xp p1) (xp p2 - xp p1) 0 1 t1 Ht1) as Hx1.
  pose proof (between (xp p1) (xp p2 - xp p1) 0 1 t2 Ht2) as Hx2.
  pose proof (between (yp p1) (yp p2 - yp p1) 0 1 t1 Ht1) as Hy1.
  pose proof (between (yp p1) (yp p2 - yp p1) 0 1 t2 Ht2) as Hy2.
  replace (xp p1 + 0 * (xp p2 - xp p1)) with (xp p1) in Hx1, Hx2 by ring.
  replace (xp p1 + 1 * (xp p2 - xp p1)) with (xp p2) in Hx1, Hx2 by ring.
  replace (yp p1 + 0 * (yp p2 - yp p1)) with (yp p1) in Hy1, Hy2 by ring.
  replace (yp p1 + 1 * (yp p2 - yp p1)) with (yp p2) in Hy1, Hy2 by ring.
  unfold covers, boundingBox, along. cbn [rx ry rw rh xp yp].
  set (ax := xp p1 + t1 * (xp p2 - xp p1)) in *.
  set (bx := xp p1 + t2 * (xp p2 - xp p1)) in *.
  set (ay := yp p1 + t1 * (yp p2 - yp p1)) in *.
  set (by_ := yp p1 + t2 * (yp p2 - yp p1)) in *.
  intros [Hqx Hqy].
  assert (Hminx : Rmin (xp p1) (xp p2) <= Rmin ax bx)
    by (apply Rmin_glb; lra).
  assert (Hmaxx : Rmax ax bx <= Rmax (xp p1) (xp p2))
    by (apply Rmax_lub; lra).
  assert (Hminy : Rmin (yp p1) (yp p2) <= Rmin ay by_)
    by (apply Rmin_glb; lra).
  assert (Hmaxy : Rmax ay by_ <= Rmax (yp p1) (yp p2))
    by (apply Rmax_lub; lra).
  lra.
Qed.

Lemma boundingBox_extent (a b : QPointF) (h : R) :
  2 * h <= rw (boundingBox a b h) /\ 2 * h <= rh (boundingBox a b h).
Proof.
  unfold boundingBox. cbn [rw rh].
  pose proof (Rmin_l (xp a) (xp b)). pose proof (Rmax_l (xp a) (xp b)).
  pose proof (Rmin_l (yp a) (yp b)). pose proof (Rmax_l (yp a) (yp b)).
  lra.
Qed.

End Spacing.

(** A spacing of 0: the first division of [pointsOnLine] raises
    [ZeroDivisionError], for every pair of points, and [rectsOnLine] raises
    with it instead of returning rectangles. *)
Theorem zero_spacing_raises (p1 p2 : QPointF) (overlap : R) :
  pointsOnLine p1 p2 0 = inl ZeroDivisionError
  /\ rectsOnLine p1 p2 0 overlap = inl ZeroDivisionError.
Proof.
  assert (Hp : pointsOnLine p1 p2 0 = inl ZeroDivisionError)
    by (unfold pointsOnLine; now rewrite truediv_zero).
  split; [exact Hp |].
  unfold rectsOnLine. now rewrite Hp.
Qed.

(** The spacing [pointsOnLine] keeps: every two consecutive points differ
    by the same step, [(p2 - p1) / count], and the smaller of the step's two
    extents is at most [maxSpacing] (the larger one may exceed it). *)
Theorem pointsOnLine_step (p1 p2 : QPointF) (maxSpacing : R) :
  maxSpacing > 0 ->
  exists points : list QPointF,
    pointsOnLine p1 p2 maxSpacing = inr points
    /\ forall (i : nat) (a b : QPointF),
         nth_error points i = Some a -> nth_error points (S i) = Some b ->
         xp b - xp a = (xp p2 - xp p1) / IZR (pieceCount p1 p2 maxSpacing)
         /\ yp b - yp a = (yp p2 - yp p1) / IZR (pieceCount p1 p2 maxSpacing)
         /\ Rmin (Rabs (xp b - xp a)) (Rabs (yp b - yp a)) <= maxSpacing.
Proof.
  intros Hm.
  destruct (pointsOnLine_points p1 p2 maxSpacing Hm)
    as (points & Hret & Hlen & Hnth & _).
  exists points. split; [exact Hret |].
  intros i a b Ha Hb.
  pose proof (pieceCount_pos p1 p2 maxSpacing) as Hc.
  assert (Hn : 0 < IZR (pieceCount p1 p2 maxSpacing)) by (apply (IZR_lt 0); lia).
  assert (Hi : (S i < length points)%nat)
    by (apply nth_error_Some; now rewrite Hb).
  rewrite Hlen in Hi.
  rewrite (Hnth i) in Ha by lia. rewrite (Hnth (S i)) in Hb by lia.
  rewrite Nat2Z.inj_succ, succ_IZR in Hb.
  injection Ha as <-. injection Hb as <-.
  unfold along. cbn [xp yp].
  assert (Hx : xp p1 + (IZR (Z.of_nat i) + 1) / IZR (pieceCount p1 p2 maxSpacing)
                       * (xp p2 - xp p1)
               - (xp p1 + IZR (Z.of_nat i) / IZR (pieceCount p1 p2 maxSpacing)
                          * (xp p2 - xp p1))
               = (xp p2 - xp p1) / IZR (pieceCount p1 p2 maxSpacing))
    by (field; lra).
  assert (Hy : yp p1 + (IZR (Z.of_nat i) + 1) / IZR (pieceCount p1 p2 maxSpacing)
                       * (yp p2 - yp p1)
               - (yp p1 + IZR (Z.of_nat i) / IZR (pieceCount p1 p2 maxSpacing)
                          * (yp p2 - yp p1))
               = (yp p2 - yp p1) / IZR (pieceCount p1 p2 maxSpacing))
    by (field; lra).
  split; [exact Hx |]. split; [exact Hy |].
  rewrite Hx, Hy, !Rabs_div_pos by assumption.
  apply pieceCount_step. lra.
Qed.

Lemma pointsOnLine_step_witness :
  exists points : list QPointF,
    pointsOnLine (QPointF_ 0 0) (QPointF_ 100 50) 40 = inr points
    /\ forall (i : nat) (a b : QPointF),
         nth_error points i = Some a -> nth_error points (S i) = Some b ->
         Rmin (Rabs (xp b - xp a)) (Rabs (yp b - yp a)) <= 40.
Proof.
  destruct (pointsOnLine_step (QPointF_ 0 0) (QPointF_ 100 50) 40)
    as (points & Hret & Hstep); [lra |].
  exists points. split; [exact Hret |].
  intros i a b Ha Hb. apply (Hstep i a b Ha Hb).
Defined.

(** [rectsOnLine] returns as many rectangles as there are pieces; none of
    them reaches outside the bounding box of the segment grown by
    [overlap / 2], and with [overlap >= 0] each is at least [overlap] wide
    and high. *)
Theorem rectsOnLine_within_box (p1 p2 : QPointF) (maxSpacing overlap : R) :
  maxSpacing > 0 ->
  exists rects : list QRectF,
    rectsOnLine p1 p2 maxSpacing overlap = inr rects
    /\ Z.of_nat (length rects) = pieceCount p1 p2 maxSpacing
    /\ forall r : QRectF,
         In r rects ->
         (forall q : QPointF,
             covers r q -> covers (boundingBox p1 p2 (overlap / 2)) q)
         /\ overlap <= rw r /\ overlap <= rh r.
Proof.
  intros Hm.
  destruct (rectsOnLine_rects p1 p2 maxSpacing overlap Hm)
    as (rects & Hret & Hlen & _).
  pose proof (pieceCount_pos p1 p2 maxSpacing) as Hc.
  exists rects. split; [exact Hret |].
  split; [rewrite Hlen; lia |].
  intros r Hin.
  destruct (In_rects p1 p2 maxSpacing overlap rects r Hm Hret Hin)
    as (t1 & t2 & Ht1 & Ht2 & ->).
  split.
  - intros q. now apply boundingBox_inside.
  - pose proof (boundingBox_extent (along p1 p2 t1) (along p1 p2 t2) (overlap / 2)).
    lra.
Qed.

Lemma rectsOnLine_within_box_witness :
  exists rects : list QRectF,
    rectsOnLine (QPointF_ 0 0) (QPointF_ 100 50) 40 5 = inr rects
    /\ forall r : QRectF, In r rects -> 5 <= rw r /\ 5 <= rh r.
Proof.
  destruct (rectsOnLine_within_box (QPointF_ 0 0) (QPointF_ 100 50) 40 5)
    as (rects & Hret & _ & Hall); [lra |].
  exists rects. split; [exact Hret |].
  intros r Hin. apply (Hall r Hin).
Defined.

(** ** The mask and the painted arms *)

(** The rectangles [updateMask] adds to the mask, [line1 + line2]: for
    every placement of the handles the two [rectsOnLine] calls return (the
    spacing is 40, never 0); every point within 2.5 of an arm, taken from
    handle center to handle center, lies in a rectangle of that arm; and
    every rectangle of an arm lies inside the bounding box of that arm grown
    by 2.5. *)
Theorem maskLines_cover_arms (self : Protractor) :
  let c := centerPoint (widget (handleC self)) in
  let a1 := centerPoint (widget (handle1 self)) in
  let a2 := centerPoint (widget (handle2 self)) in
  exists line1 line2 : list QRectF,
    rectsOnLine c a1 40 5 = inr line1
    /\ rectsOnLine c a2 40 5 = inr line2
    /\ Protractor_.maskLines self = inr (line1 ++ line2)
    /\ (forall q : QPointF,
          nearSegment c a1 (5 / 2) q -> exists r : QRectF, In r line1 /\ covers r q)
    /\ (forall q : QPointF,
          nearSegment c a2 (5 / 2) q -> exists r : QRectF, In r line2 /\ covers r q)
    /\ (forall r : QRectF,
          In r line1 ->
          forall q : QPointF, covers r q -> covers (boundingBox c a1 (5 / 2)) q)
    /\ (forall r : QRectF,
          In r line2 ->
          forall q : QPointF, covers r q -> covers (boundingBox c a2 (5 / 2)) q).
Proof.
  cbv zeta.
  set (c := centerPoint (widget (handleC self))).
  set (a1 := centerPoint (widget (handle1 self))).
  set (a2 := centerPoint (widget (handle2 self))).
  assert (H40 : 40 > 0) by lra.
  destruct (rectsOnLine_rects c a1 40 5 H40) as (line1 & Hr1 & Hlen1 & Hnth1).
  destruct (rectsOnLine_rects c a2 40 5 H40) as (line2 & Hr2 & Hlen2 & Hnth2).
  exists line1, line2.
  split; [exact Hr1 |]. split; [exact Hr2 |].
  split.
  { unfold Protractor_.maskLines. fold c a1 a2. now rewrite Hr1, Hr2. }
  split; [| split; [| split]].
  - intros q Hq.
    destruct (pieces_cover c a1 (pieceCount c a1 40) (5 / 2) q
                (pieceCount_pos _ _ _) Hq) as (i & Hi & Hcov).
    eexists. split; [| exact Hcov].
    apply nth_error_In with i. apply Hnth1. lia.
  - intros q Hq.
    destruct (pieces_cover c a2 (pieceCount c a2 40) (5 / 2) q
                (pieceCount_pos _ _ _) Hq) as (i & Hi & Hcov).
    eexists. split; [| exact Hcov].
    apply nth_error_In with i. apply Hnth2. lia.
  - intros r Hin q Hcov.
    destruct (In_rects c a1 40 5 line1 r H40 Hr1 Hin)
      as (t1 & t2 & Ht1 & Ht2 & ->).
    now apply (boundingBox_inside c a1 t1 t2).
  - intros r Hin q Hcov.
    destruct (In_rects c a2 40 5 line2 r H40 Hr2 Hin)
      as (t1 & t2 & Ht1 & Ht2 & ->).
    now apply (boundingBox_inside c a2 t1 t2).
Qed.

Lemma maskLines_cover_arms_witness :
  exists (line1 : list QRectF) (r : QRectF),
    rectsOnLine (centerPoint (widget (handleC Protractor_.__init__)))
                (centerPoint (widget (handle1 Protractor_.__init__))) 40 5
    = inr line1
    /\ In r line1
    /\ covers r (centerPoint (widget (handleC Protractor_.__init__))).
Proof.
  destruct (maskLines_cover_arms Protractor_.__init__)
    as (line1 & line2 & Hr1 & _ & _ & Hcov & _).
  destruct (Hcov (centerPoint (widget (handleC Protractor_.__init__))))
    as (r & Hin & Hr).
  - exists 0. split; [lra |].
    rewrite along_start.
    replace (dist _ _) with 0; [lra |].
    symmetry. now apply dist_zero_iff.
  - exists line1, r. split; [exact Hr1 | split; [exact Hin | exact Hr]].
Defined.

Section Painting.

(** The lines drawn before stay, whatever the call adds. *)
Lemma drawShortenedLine_app (qPainter : QPainter) (p1 p2 : QPointF)
    (shorten1 shorten2 : R) :
  drawShortenedLine qPainter p1 p2 shorten1 shorten2
  = qPainter ++ drawShortenedLine [] p1 p2 shorten1 shorten2.
Proof.
  unfold drawShortenedLine, drawLine.
  destruct (Req_dec_T _ 0); [now rewrite app_nil_r |].
  destruct (Rge_dec _ _); [now rewrite app_nil_r | reflexivity].
Qed.

Lemma r_31 (h : Handle) : size31 h -> Handle_.r h + 1 = 35 / 4.
Proof. intros [Hw _]. unfold Handle_.r. rewrite Hw. lra. Qed.

(** One arm, for handles of the standard size. *)
Lemma arm_31 (c a : QPointF) :
  (dist c a <= 35 / 2 -> drawShortenedLine [] c a (35 / 4) (35 / 4) = [])
  /\ (35 / 2 < dist c a ->
      exists s e : QPointF,
        drawShortenedLine [] c a (35 / 4) (35 / 4) = [Line s e]
        /\ dist c s = 35 / 4 /\ dist e a = 35 / 4
        /\ dist s e = dist c a - 35 / 2).
Proof.
  split.
  - intros Hle. apply drawShortenedLine_degenerate_case2. lra.
  - intros Hlt.
    destruct (drawShortenedLine_ends [] c a (35 / 4) (35 / 4))
      as (s & e & Hd & Hs & He & Hl); [lra | lra | lra |].
    exists s, e. repeat split; [exact Hd | exact Hs | exact He | lra].
Qed.

End Painting.

(** What [paintEvent] draws in a state the overlay can reach: the two arms,
    once with each pen.  An arm whose handle centers are at most 17.5 apart
    is not drawn at all; a longer one is drawn from 8.75 (the radius 7.75 of
    the handle's circle, plus 1) off the center handle's center to 8.75 off
    the arm handle's center. *)
Theorem paintEvent_arms (self : Protractor) :
  reachable self ->
  let c := centerPoint (widget (handleC self)) in
  let a1 := centerPoint (widget (handle1 self)) in
  let a2 := centerPoint (widget (handle2 self)) in
  exists arm1 arm2 : list QLineF,
    Protractor_.paintEvent self = arm1 ++ arm2 ++ arm1 ++ arm2
    /\ (dist c a1 <= 35 / 2 -> arm1 = [])
    /\ (35 / 2 < dist c a1 ->
        exists s e : QPointF,
          arm1 = [Line s e] /\ dist c s = 35 / 4 /\ dist e a1 = 35 / 4
          /\ dist s e = dist c a1 - 35 / 2)
    /\ (dist c a2 <= 35 / 2 -> arm2 = [])
    /\ (35 / 2 < dist c a2 ->
        exists s e : QPointF,
          arm2 = [Line s e] /\ dist c s = 35 / 4 /\ dist e a2 = 35 / 4
          /\ dist s e = dist c a2 - 35 / 2).
Proof.
  intros Hr. cbv zeta.
  destruct (reachable_fresh self Hr) as (HC_ & H1_ & H2_ & _).
  set (c := centerPoint (widget (handleC self))).
  set (a1 := centerPoint (widget (handle1 self))).
  set (a2 := centerPoint (widget (handle2 self))).
  exists (drawShortenedLine [] c a1 (35 / 4) (35 / 4)),
         (drawShortenedLine [] c a2 (35 / 4) (35 / 4)).
  split.
  - unfold Protractor_.paintEvent. cbn [fold_left]. fold c a1 a2.
    rewrite (r_31 _ HC_), (r_31 _ H1_), (r_31 _ H2_).
    set (q1 := drawShortenedLine [] c a1 (35 / 4) (35 / 4)).
    set (q2 := drawShortenedLine q1 c a2 (35 / 4) (35 / 4)).
    set (q3 := drawShortenedLine q2 c a1 (35 / 4) (35 / 4)).
    rewrite (drawShortenedLine_app q3). unfold q3.
    rewrite (drawShortenedLine_app q2). unfold q2.
    rewrite (drawShortenedLine_app q1).
    now rewrite <- !app_assoc.
  - pose proof (arm_31 c a1) as [E1 D1]. pose proof (arm_31 c a2) as [E2 D2].
    split; [exact E1 |]. split; [exact D1 |]. split; [exact E2 | exact D2].
Qed.

Lemma paintEvent_arms_witness :
  exists arm1 arm2 : list QLineF,
    Protractor_.paintEvent Protractor_.__init__ = arm1 ++ arm2 ++ arm1 ++ arm2
    /\ exists s e : QPointF,
         arm1 = [Line s e]
         /\ dist (centerPoint (widget (handleC Protractor_.__init__))) s = 35 / 4.
Proof.
  destruct (paintEvent_arms Protractor_.__init__ reachable_init)
    as (arm1 & arm2 & Hp & _ & Hdrawn & _).
  assert (Hd : dist (centerPoint (widget (handleC Protractor_.__init__)))
                    (centerPoint (widget (handle1 Protractor_.__init__))) = 150).
  { unfold dist, centerPoint, QPointF_. cbn [xp yp].
    cbn [Protractor_.__init__ Protractor_.updateDisplay Protractor_.setLabel
         handleC handle1 widget Handle_.move Handle_.__init__ move setGeometry
         wx wy wwidth wheight xp yp QPoint_].
    match goal with |- sqrt ?v = _ => replace v with (150 * 150) by lra end.
    apply sqrt_square. lra. }
  destruct Hdrawn as (s & e & Harm & Hs & _); [rewrite Hd; lra |].
  exists arm1, arm2. split; [exact Hp |].
  exists s, e. split; [exact Harm | exact Hs].
Defined.
